(** * fabricjs-label-editor: document history and content-aware bounds

    A shallow embedding of [lib/undo-redo-stack.ts] (classes [ActionStack]
    and [UndoRedoStack]) and of the pixel scan and the alignment arithmetic
    of [lib/utils.ts] ([scanPixels], [alignObject]), with the properties of
    the specification stated over them. *)

From Stdlib Require Import ZArith QArith Qabs Lia Lqa List.
From Stdlib.Strings Require Import Byte.
From stdpp Require Import base option list gmap strings.

Local Open Scope Z_scope.

(** ** JavaScript arrays in a store

    [ActionStack] keeps a reference to a mutable JavaScript array.  Arrays
    live in a store indexed by locations; an entry of an array is a
    JavaScript value, [None] standing for [undefined] and [Some a] for any
    other value [a]. *)

Definition loc := positive.

Abbreviation undefined := None (only parsing).

Section Store.
Context {A : Type}.

(** A computation over the store of arrays. *)
Definition M (T : Type) : Type := gmap loc (list (option A)) → T * gmap loc (list (option A)).

Definition ret {T} (x : T) : M T := λ h, (x, h).

Definition bind {T U} (m : M T) (k : T → M U) : M U :=
  λ h, let '(x, h') := m h in k x h'.

(** The contents of the array at [l]. *)
Definition arr (h : gmap loc (list (option A))) (l : loc) : list (option A) :=
  default [] (h !! l).

(** [[]] and [[...xs]]: a new array, at a location not in use. *)
Definition Array_new (xs : list (option A)) : M loc :=
  λ h, let l := fresh (dom h) in (l, <[l := xs]> h).

(** [a.push(val)] *)
Definition Array_push (l : loc) (val : option A) : M unit :=
  λ h, (tt, <[l := arr h l ++ [val]]> h).

(** [a.pop()]: the last entry, removed; [undefined] on an empty array. *)
Definition Array_pop (l : loc) : M (option A) :=
  λ h, (default undefined (last (arr h l)), <[l := removelast (arr h l)]> h).

(** [a.splice(0)]: removes every entry from index 0 on. *)
Definition Array_splice0 (l : loc) : M unit :=
  λ h, (tt, <[l := []]> h).

(** [a.at(-1)]: the last entry, [undefined] on an empty array. *)
Definition Array_at_last (l : loc) : M (option A) :=
  λ h, (default undefined (last (arr h l)), h).

(** [a.length] *)
Definition Array_length (l : loc) : M nat :=
  λ h, (length (arr h l), h).

(** [[...a]]: a new array with the entries of [a]. *)
Definition Array_spread (l : loc) : M loc :=
  λ h, Array_new (arr h l) h.
End Store.

Notation "'let*' x := m 'in' k" := (bind m (λ x, k))
  (at level 10, x name, m at level 100, k at level 200).
Notation "m ;; k" := (bind m (λ _, k))
  (at level 100, k at level 200, right associativity).

(** ** [class ActionStack] *)

Module ActionStack.

(** [private readonly state: any[]] *)
Record t := { state : loc }.

Section Methods.
Context {A : Type}.
Implicit Types (s : t) (val : option A).

(** [new ActionStack()], with the default argument [state = []]. *)
Definition new : M (A := A) t :=
  let* l := Array_new [] in ret {| state := l |}.

Definition push s val : M (A := A) unit := Array_push (state s) val.

Definition pop s : M (A := A) (option A) := Array_pop (state s).

Definition isEmpty s : M (A := A) bool :=
  let* n := Array_length (state s) in ret (n <? 1)%nat.

Definition clear s : M (A := A) unit := Array_splice0 (state s).

Definition current s : M (A := A) (option A) := Array_at_last (state s).

Definition getValues s : M (A := A) loc := Array_spread (state s).

Definition length s : M (A := A) nat := Array_length (state s).
End Methods.
End ActionStack.

(** ** [class UndoRedoStack] *)

Module UndoRedoStack.

Record t := { undoStack : ActionStack.t; redoStack : ActionStack.t }.

Section Methods.
Context {A : Type}.
Implicit Types (u : t) (val : option A).

(** [new UndoRedoStack()]: the default argument builds [redoStack]
    first, then [undoStack], each over an array of its own. *)
Definition new : M (A := A) t :=
  let* r := ActionStack.new in
  let* s := ActionStack.new in
  ret {| undoStack := s; redoStack := r |}.

Definition push u val : M (A := A) unit :=
  ActionStack.push (undoStack u) val ;;
  ActionStack.clear (redoStack u).

Definition undo u : M (A := A) (option A) :=
  let* n := ActionStack.length (undoStack u) in
  if (1 <? n)%nat then
    let* op := ActionStack.pop (undoStack u) in
    ActionStack.push (redoStack u) op ;;
    ActionStack.current (undoStack u)
  else ret undefined.

Definition redo u : M (A := A) (option A) :=
  let* e := ActionStack.isEmpty (redoStack u) in
  if negb e then
    let* op := ActionStack.pop (redoStack u) in
    ActionStack.push (undoStack u) op ;;
    ret op
  else ret undefined.

Definition clear u : M (A := A) unit :=
  ActionStack.clear (undoStack u) ;;
  ActionStack.clear (redoStack u).

Definition latest u : M (A := A) (option A) :=
  ActionStack.current (undoStack u).

(** [getValues()]: the object [{undo, redo}] of two new arrays. *)
Definition getValues u : M (A := A) (loc * loc) :=
  let* vu := ActionStack.getValues (undoStack u) in
  let* vr := ActionStack.getValues (redoStack u) in
  ret (vu, vr).
End Methods.
End UndoRedoStack.

(** ** Call sequences on a history

    The properties of the history are stated over programs that create an
    [UndoRedoStack] and then call its methods in sequence. *)

Section Calls.
Context {A : Type}.
Implicit Types (u : UndoRedoStack.t).

(** [for (const val of vals) u.push(val)] *)
Fixpoint pushes u (vals : list (option A)) : M (A := A) unit :=
  match vals with
  | [] => ret tt
  | val :: vals' => UndoRedoStack.push u val ;; pushes u vals'
  end.

(** [k] calls of [u.undo()], results dropped. *)
Fixpoint undos u (k : nat) : M (A := A) unit :=
  match k with
  | O => ret tt
  | S k' => UndoRedoStack.undo u ;; undos u k'
  end.

(** [k] calls of [u.redo()], results dropped. *)
Fixpoint redos u (k : nat) : M (A := A) unit :=
  match k with
  | O => ret tt
  | S k' => UndoRedoStack.redo u ;; redos u k'
  end.

(** Push the snapshots [ss] on a new history, undo [k] times, then read
    [latest()] and the length of the undo stack. *)
Definition floor_run (ss : list A) (k : nat) : M (A := A) (option A * nat) :=
  let* u := UndoRedoStack.new in
  pushes u (Some <$> ss) ;;
  undos u k ;;
  let* cur := UndoRedoStack.latest u in
  let* n := ActionStack.length (UndoRedoStack.undoStack u) in
  ret (cur, n).

(** Push the snapshots [ss] on a new history, undo [k] times, redo [k]
    times, then read [latest()]. *)
Definition inverse_run (ss : list A) (k : nat) : M (A := A) (option A) :=
  let* u := UndoRedoStack.new in
  pushes u (Some <$> ss) ;;
  undos u k ;;
  redos u k ;;
  UndoRedoStack.latest u.

(** [push(a); push(b); undo(); push(c)] on a new history. *)
Definition discard_prefix (a b c : option A) : M (A := A) UndoRedoStack.t :=
  let* u := UndoRedoStack.new in
  UndoRedoStack.push u a ;;
  UndoRedoStack.push u b ;;
  UndoRedoStack.undo u ;;
  UndoRedoStack.push u c ;;
  ret u.

(** The contents of the two stacks of [u], bottom first. *)
Definition view u (h : gmap loc (list (option A))) : list (option A) * list (option A) :=
  (arr h (ActionStack.state (UndoRedoStack.undoStack u)),
   arr h (ActionStack.state (UndoRedoStack.redoStack u))).
End Calls.

(** The scenario of the specification: the results of the three [undo()]
    and the two [redo()] calls, in order. *)
Definition scenario : M (A := string) (list (option string)) :=
  let* u := UndoRedoStack.new in
  UndoRedoStack.push u (Some "A"%string) ;;
  UndoRedoStack.push u (Some "B"%string) ;;
  UndoRedoStack.push u (Some "C"%string) ;;
  let* r1 := UndoRedoStack.undo u in
  let* r2 := UndoRedoStack.undo u in
  let* r3 := UndoRedoStack.undo u in
  let* r4 := UndoRedoStack.redo u in
  UndoRedoStack.push u (Some "D"%string) ;;
  let* r5 := UndoRedoStack.redo u in
  ret [r1; r2; r3; r4; r5].

(** ** Clients of [ActionStack.getValues]

    A client holding the array returned by [getValues()] may write to it
    between two calls of [pop()] and [current()]. *)

Inductive step {A : Type} :=
  | CallPop
  | CallCurrent
  | Mutate (xs : list (option A)).
Arguments step : clear implicits.

Section Clients.
Context {A : Type}.

(** Any write to the array at [l] ([a[i] = v], [a.push(v)],
    [a.length = 0], ...) leaves it with some new contents [xs]. *)
Definition Array_overwrite (l : loc) (xs : list (option A)) : M (A := A) unit :=
  λ h, (tt, <[l := xs]> h).

(** Runs the steps in order; [copy] is the array the client writes to.
    Returns the results of the [pop()] and [current()] calls. *)
Fixpoint client (s : ActionStack.t) (copy : loc) (prog : list (step A))
    : M (A := A) (list (option A)) :=
  match prog with
  | [] => ret []
  | CallPop :: prog' =>
      let* r := ActionStack.pop s in
      let* rs := client s copy prog' in ret (r :: rs)
  | CallCurrent :: prog' =>
      let* r := ActionStack.current s in
      let* rs := client s copy prog' in ret (r :: rs)
  | Mutate xs :: prog' =>
      Array_overwrite copy xs ;; client s copy prog'
  end.

(** The calls of [prog], its writes left out. *)
Fixpoint calls_only (prog : list (step A)) : list (step A) :=
  match prog with
  | [] => []
  | Mutate _ :: prog' => calls_only prog'
  | c :: prog' => c :: calls_only prog'
  end.
End Clients.

(** ** [scanPixels] ([lib/utils.ts], lines 51-108)

    [w] and [h] are the variables of the enclosing [getRealBBox], set to
    the width and height of the decoded image before the scan runs;
    [imageData] is the [Uint8ClampedArray] of [getImageData]: four bytes
    (red, green, blue, alpha) for each pixel, row by row. *)

(** The object returned by [scanPixels]. *)
Record RealBBox := {
  x1 : Z; x2 : Z; y1 : Z; y2 : Z; width : Z; height : Z
}.

(** [new Uint32Array(imageData)]: the constructor applied to a typed array
    makes an array of the same length and converts each element by value;
    it does not view the bytes four at a time (that would be
    [new Uint32Array(imageData.buffer)]).  Entry [i] of the result is the
    byte [imageData[i]] as a number. *)
Definition Uint32Array_from (imageData : list byte) : list Z :=
  (λ b, Z.of_N (Byte.to_N b)) <$> imageData.

(** [data[i]]: [undefined] outside of the array. *)
Definition typed_get (data : list Z) (i : Z) : option Z :=
  if i <? 0 then undefined else data !! Z.to_nat i.

(** The conversion of the operands of [&] to signed 32-bit integers;
    [undefined] converts to 0. *)
Definition ToInt32 (n : Z) : Z :=
  let m := n mod 2 ^ 32 in if m <? 2 ^ 31 then m else m - 2 ^ 32.

(** [v & m] *)
Definition bitand (v : option Z) (m : Z) : Z :=
  Z.land (ToInt32 (default 0 v)) (ToInt32 m).

(** A number as the condition of an [if]. *)
Definition truthy (n : Z) : bool := negb (n =? 0).

(** [data[y * w + x] & 0xff000000], as a condition. *)
Definition hit (data : list Z) (w x y : Z) : bool :=
  truthy (bitand (typed_get data (y * w + x)) 0xff000000).

(** The values of [v] in [for (v = lo; v < hi; v++)]. *)
Definition upto (lo hi : Z) : list Z := seqZ lo (hi - lo).

(** The values of [v] in [for (v = hi; v > lo; v--)]. *)
Definition downto (hi lo : Z) : list Z := (λ i, hi - i) <$> seqZ 0 (hi - lo).

(** The inner loop of the y1 and of the y2 sweep (lines 58-64, 70-76):
    whether it breaks on a hit in row [y]. *)
Fixpoint row_hit (data : list Z) (w y : Z) (xs : list Z) : bool :=
  match xs with
  | [] => false
  | x :: xs' => if hit data w x y then true else row_hit data w y xs'
  end.

(** The outer loop of the y1 and of the y2 sweep (lines 57-65, 69-77) over
    the rows [ys]: on the first row with a hit the row is recorded and the
    loop variable is set past the end ([y = h], [y = 0]), which ends the
    loop. *)
Fixpoint first_row (data : list Z) (w : Z) (ys : list Z) : option Z :=
  match ys with
  | [] => undefined
  | y :: ys' =>
      if row_hit data w y (upto 0 w) then Some y else first_row data w ys'
  end.

(** The inner loop of the x1 sweep (lines 82-87). *)
Fixpoint x1_row (data : list Z) (w y x1 : Z) (xs : list Z) : Z :=
  match xs with
  | [] => x1
  | x :: xs' =>
      if (x <? x1) && hit data w x y then x else x1_row data w y x1 xs'
  end.

(** The outer loop of the x1 sweep (lines 81-88). *)
Fixpoint x1_rows (data : list Z) (w x1 : Z) (ys : list Z) : Z :=
  match ys with
  | [] => x1
  | y :: ys' => x1_rows data w (x1_row data w y x1 (upto 0 w)) ys'
  end.

(** The inner loop of the x2 sweep (lines 92-97). *)
Fixpoint x2_row (data : list Z) (w y x2 : Z) (xs : list Z) : Z :=
  match xs with
  | [] => x2
  | x :: xs' =>
      if (x >? x2) && hit data w x y then x else x2_row data w y x2 xs'
  end.

(** The outer loop of the x2 sweep (lines 91-98); [x1] is final here. *)
Fixpoint x2_rows (data : list Z) (w x1 x2 : Z) (ys : list Z) : Z :=
  match ys with
  | [] => x2
  | y :: ys' =>
      x2_rows data w x1 (x2_row data w y x2 (downto (w - 1) x1)) ys'
  end.

(** Lines 53-107: the four sweeps over [data] and the result. *)
Definition scan_data (w h : Z) (data : list Z) : RealBBox :=
  let y1 := default (h - 1) (first_row data w (upto 0 h)) in
  let y2 := default (y1 + 1) (first_row data w (downto (h - 1) y1)) in
  let x1 := x1_rows data w w (upto y1 y2) in
  let x2 := x2_rows data w x1 0 (upto y1 y2) in
  {| x1 := x1; x2 := x2; y1 := y1; y2 := y2;
     width := x2 - x1; height := y2 - y1 |}.

Definition scanPixels (w h : Z) (imageData : list byte) : RealBBox :=
  scan_data w h (Uint32Array_from imageData).

(** *** Pixels of a decoded image *)

(** The alpha byte of the pixel in column [x] of row [y]. *)
Definition alpha (imageData : list byte) (w x y : Z) : option byte :=
  imageData !! Z.to_nat (4 * (y * w + x) + 3).

(** The pixel in column [x] of row [y] has non-zero alpha. *)
Definition opaque_at (imageData : list byte) (w x y : Z) : Prop :=
  ∃ b, alpha imageData w x y = Some b ∧ b ≠ x00.

(** [imageData] is the decoded image of [w] by [h] pixels. *)
Definition PixelBuffer (w h : Z) (imageData : list byte) : Prop :=
  0 ≤ w ∧ 0 ≤ h ∧ Z.of_nat (length imageData) = 4 * w * h.

(** The rectangle [r] contains every pixel of non-zero alpha. *)
Definition encloses (w h : Z) (imageData : list byte) (r : RealBBox) : Prop :=
  ∀ x y, 0 ≤ x < w → 0 ≤ y < h → opaque_at imageData w x y →
    x1 r ≤ x ≤ x2 r ∧ y1 r ≤ y ≤ y2 r.

(** [r] is the minimal rectangle of the pixels of non-zero alpha: it
    contains them all and each of its four edges has one. *)
Definition minimal_rectangle (w h : Z) (imageData : list byte) (r : RealBBox)
    : Prop :=
  encloses w h imageData r
  ∧ (∃ y, 0 ≤ y < h ∧ 0 ≤ x1 r < w ∧ opaque_at imageData w (x1 r) y)
  ∧ (∃ y, 0 ≤ y < h ∧ 0 ≤ x2 r < w ∧ opaque_at imageData w (x2 r) y)
  ∧ (∃ x, 0 ≤ x < w ∧ 0 ≤ y1 r < h ∧ opaque_at imageData w x (y1 r))
  ∧ (∃ x, 0 ≤ x < w ∧ 0 ≤ y2 r < h ∧ opaque_at imageData w x (y2 r)).

(** The 2 by 2 image whose only pixel of non-zero alpha is in column 1 of
    row 1 (red, green, blue, alpha for each pixel). *)
Definition single_pixel_2x2 : list byte :=
  [x00; x00; x00; x00;  x00; x00; x00; x00;
   x00; x00; x00; x00;  x00; x00; x00; xff].

(** The 2 by 1 image whose only pixel of non-zero alpha is in column 1,
    and the same image as packed pixels. *)
Definition column_one_pixel_2x1 : list byte :=
  [x00; x00; x00; x00;  x00; x00; x00; xff].

Definition packed_column_one_pixel_2x1 : list Z := [0; 0xff000000].

(** ** [alignObject] ([lib/utils.ts], lines 121-217)

    Coordinates are JavaScript numbers, taken here as rationals.  The
    bounding rectangle of the object ([getBoundingRect()]) and its scanned
    bounds ([await getRealBBox(activeSelection)]) come from the canvas
    library and from the rasterized object; they are arguments here.  The
    calls [setCoords()], [renderAll()] and [fire('object:modified')] act
    on the canvas library only. *)

Module Align.
Record Canvas := { canvas_width : Q; canvas_height : Q }.

(** The fields of [getBoundingRect()] that [alignObject] reads. *)
Record BoundingRect := { bound_left : Q; bound_top : Q }.

(** The fields of the fabric object that [alignObject] reads and sets. *)
Record FabricObject := { left : Q; top : Q }.

(** [activeSelection.set('left', v)] and [activeSelection.set('top', v)] *)
Definition set_left (o : FabricObject) (v : Q) : FabricObject :=
  {| left := v; top := top o |}.
Definition set_top (o : FabricObject) (v : Q) : FabricObject :=
  {| left := left o; top := v |}.

Local Open Scope Q_scope.

Definition alignObject (canvas : Canvas) (bound : BoundingRect)
    (realBound : RealBBox) (activeSelection : FabricObject) (pos : string)
    : FabricObject :=
  if String.eqb pos "left" then
    set_left activeSelection
      (left activeSelection - bound_left bound - inject_Z (x1 realBound))
  else if String.eqb pos "center-h" then
    set_left activeSelection
      ((left activeSelection - bound_left bound - inject_Z (x1 realBound))
       + (canvas_width canvas / 2) - (inject_Z (width realBound) / 2))
  else if String.eqb pos "right" then
    set_left activeSelection
      ((left activeSelection - bound_left bound - inject_Z (x1 realBound))
       + canvas_width canvas - inject_Z (width realBound))
  else if String.eqb pos "top" then
    set_top activeSelection
      (top activeSelection - bound_top bound - inject_Z (y1 realBound))
  else if String.eqb pos "center-v" then
    set_top activeSelection
      ((top activeSelection - bound_top bound - inject_Z (y1 realBound))
       + (canvas_height canvas / 2) - (inject_Z (height realBound) / 2))
  else if String.eqb pos "bottom" then
    set_top activeSelection
      ((top activeSelection - bound_top bound - inject_Z (y1 realBound))
       + (canvas_height canvas - inject_Z (height realBound)))
  else activeSelection.
End Align.

(** ** Arbitrary call sequences on a history *)

Inductive call {A : Type} :=
  | Push (snapshot : A)
  | Undo
  | Redo.
Arguments call : clear implicits.

Section CallSequences.
Context {A : Type}.

(** Calls [u.push(snapshot)], [u.undo()] and [u.redo()] in the order of
    [cs], results dropped. *)
Fixpoint calls (u : UndoRedoStack.t) (cs : list (call A)) : M (A := A) unit :=
  match cs with
  | [] => ret tt
  | Push snapshot :: cs' => UndoRedoStack.push u (Some snapshot) ;; calls u cs'
  | Undo :: cs' => UndoRedoStack.undo u ;; calls u cs'
  | Redo :: cs' => UndoRedoStack.redo u ;; calls u cs'
  end.

(** A new history, a first [push(s0)], then the calls [cs]; reads
    [latest()] and the length of the undo stack at the end. *)
Definition calls_run (s0 : A) (cs : list (call A)) : M (A := A) (option A * nat) :=
  let* u := UndoRedoStack.new in
  UndoRedoStack.push u (Some s0) ;;
  calls u cs ;;
  let* cur := UndoRedoStack.latest u in
  let* n := ActionStack.length (UndoRedoStack.undoStack u) in
  ret (cur, n).

(** The entries of both stacks as one sequence, oldest first: the undo
    stack from the bottom, then the redo stack from the top. *)
Definition timeline (v : list (option A) * list (option A)) : list (option A) :=
  v.1 ++ reverse v.2.
End CallSequences.

(** ** [inRange] ([lib/utils.ts], lines 256-265)

    Numbers are taken as rationals, as for [alignObject]. *)

Definition inRange (radius cursorX cursorY targetX targetY : Q) : bool :=
  Qle_bool (Qabs (cursorX - targetX)) radius
  && Qle_bool (Qabs (cursorY - targetY)) radius.

(** ** [getActiveFontStyle] ([lib/utils.ts], lines 219-238) and its
    callers in [lib/core.ts]

    Of the text object the function reads the flag [isEditing] and, when
    it is set, the array returned by [getSelectionStyles()]; both are
    arguments here.  A style of that array is an object from style names
    to values. *)

Inductive JsValue :=
  | JsUndefined
  | JsBoolean (b : bool)
  | JsNumber (n : Q)
  | JsString (s : string).

(** A value as a condition. *)
Definition js_truthy (v : JsValue) : bool :=
  match v with
  | JsUndefined => false
  | JsBoolean b => b
  | JsNumber n => negb (Qeq_bool n 0)
  | JsString s => negb (String.eqb s "")
  end.

(** [s[styleName]] *)
Definition style_get (s : gmap string JsValue) (styleName : string) : JsValue :=
  default JsUndefined (s !! styleName).

(** What [getActiveFontStyle] returns: a style of the selection,
    [undefined], or a string. *)
Inductive FontStyle :=
  | StyleObject (s : gmap string JsValue)
  | StyleUndefined
  | StyleString (s : string).

(** Lines 223-227; the statements after [return ''] are never reached. *)
Definition getActiveFontStyle (isEditing : bool)
    (selectionStyles : list (gmap string JsValue)) (styleName : string)
    : FontStyle :=
  if isEditing then
    match List.find (λ s, js_truthy (style_get s styleName)) selectionStyles with
    | Some s => StyleObject s
    | None => StyleUndefined
    end
  else StyleString "".

(** [r === str], for a string literal [str]. *)
Definition strict_eq_string (r : FontStyle) (str : string) : bool :=
  match r with
  | StyleString s => String.eqb s str
  | _ => false
  end.

(** [!r]: an object is truthy, [undefined] and [''] are not. *)
Definition font_style_not (r : FontStyle) : bool :=
  match r with
  | StyleObject _ => false
  | StyleUndefined => true
  | StyleString s => String.eqb s ""
  end.

(** The value that the bold and the italic button pass to
    [setActiveFontStyle] ([core.ts], lines 833-836 and 846-849):
    [getActiveFontStyle(sel, name) === on ? '' : on]. *)
Definition toggle_value (isEditing : bool)
    (selectionStyles : list (gmap string JsValue)) (styleName on : string)
    : string :=
  if strict_eq_string (getActiveFontStyle isEditing selectionStyles styleName) on
  then ""%string else on.

(** The value that the underline and the linethrough button pass
    ([core.ts], lines 859-862 and 872-875):
    [!getActiveFontStyle(sel, name)]. *)
Definition flag_value (isEditing : bool)
    (selectionStyles : list (gmap string JsValue)) (styleName : string) : bool :=
  font_style_not (getActiveFontStyle isEditing selectionStyles styleName).

(** ** Numbers on which the arithmetic of the code is exact

    The code computes on IEEE doubles, which round after each operation;
    the definitions above compute on rationals.  On integers of magnitude
    at most [2 ^ 50] the sums, differences and halves that [alignObject]
    and [inRange] take stay below [2 ^ 53] and are integers or half
    integers: no operation rounds, and the code computes the same values
    as the definitions. *)

Definition exact_int (q : Q) : Prop :=
  ∃ z : Z, q = inject_Z z ∧ Z.abs z ≤ 2 ^ 50.

(** A canvas of 800 by 600, an object at (50, 20) with its bounding
    rectangle at the same place, and scanned bounds with [x1 = 5],
    [y1 = 2], width 100 and height 28. *)
Definition canvas_800x600 : Align.Canvas :=
  {| Align.canvas_width := 800; Align.canvas_height := 600 |}.

Definition bound_50_20 : Align.BoundingRect :=
  {| Align.bound_left := 50; Align.bound_top := 20 |}.

Definition object_50_20 : Align.FabricObject :=
  {| Align.left := 50; Align.top := 20 |}.

Definition bbox_5_2 : RealBBox :=
  {| x1 := 5; x2 := 105; y1 := 2; y2 := 30; width := 100; height := 28 |}.

(** ** Small examples

    A history over the arrays at locations 1 and 2, a store in which it
    holds "A", "B" below the redo entry "C", and the packed 2 by 2 image
    with one pixel of non-zero alpha, at column 1 of row 1. *)

Definition history12 : UndoRedoStack.t :=
  {| UndoRedoStack.undoStack := {| ActionStack.state := 1%positive |};
     UndoRedoStack.redoStack := {| ActionStack.state := 2%positive |} |}.

Definition store12 : gmap loc (list (option string)) :=
  {[ 1%positive := [Some "A"; Some "B"]%string;
     2%positive := [Some "C"%string] ]}.

Definition packed_single_pixel_2x2 : list Z := [0; 0; 0; 0xff000000].

(** * Properties of the history *)

(** Unfolds the methods down to their reads and writes of the store. *)
Ltac run_methods :=
  unfold view, UndoRedoStack.new, UndoRedoStack.push, UndoRedoStack.undo,
    UndoRedoStack.redo, UndoRedoStack.clear, UndoRedoStack.latest,
    UndoRedoStack.getValues,
    ActionStack.new, ActionStack.push, ActionStack.pop, ActionStack.isEmpty,
    ActionStack.clear, ActionStack.current, ActionStack.getValues,
    ActionStack.length,
    Array_spread, Array_new, Array_push, Array_pop, Array_splice0,
    Array_at_last, Array_length, bind, ret;
  cbv beta iota zeta;
  cbn [fst snd negb UndoRedoStack.undoStack UndoRedoStack.redoStack
       ActionStack.state].

(** Evaluates the right-hand side of the equation [H]. *)
Ltac compute_rhs H :=
  match type of H with
  | ?l = ?r => let r' := eval vm_compute in r in change (l = r') in H
  end.

Section StoreFacts.
Context {A : Type}.
Implicit Types (h : gmap loc (list (option A))) (l : loc) (xs : list (option A)).

Lemma bind_run {T U} (m : M (A := A) T) (k : T → M (A := A) U) h :
  bind m k h = k (m h).1 (m h).2.
Proof. unfold bind. by destruct (m h). Qed.

Lemma arr_insert_eq h l xs : arr (<[l := xs]> h) l = xs.
Proof. unfold arr. by rewrite lookup_insert_eq. Qed.

Lemma arr_insert_ne h l l' xs : l ≠ l' → arr (<[l := xs]> h) l' = arr h l'.
Proof. intros. unfold arr. by rewrite lookup_insert_ne. Qed.

Lemma Array_new_fresh h xs : h !! (Array_new xs h).1 = None.
Proof. cbn. apply not_elem_of_dom, is_fresh. Qed.
End StoreFacts.

(** Reads of an array after writes, at equal or at different locations. *)
Ltac arr_simpl :=
  repeat (rewrite arr_insert_eq || rewrite arr_insert_ne by done).

(** ** Each method on the contents of the two stacks

    For a history whose two stacks are over different arrays, every method
    acts on the pair of their contents only. *)

Section ViewFacts.
Context {A : Type}.
Variable u : UndoRedoStack.t.
Hypothesis distinct :
  ActionStack.state (UndoRedoStack.undoStack u)
  ≠ ActionStack.state (UndoRedoStack.redoStack u).
Implicit Types (h : gmap loc (list (option A))) (us rs : list (option A)).

Lemma push_view h val :
  view u (UndoRedoStack.push u val h).2 = ((view u h).1 ++ [val], []).
Proof.
  run_methods.
  by arr_simpl.
Qed.

Lemma undo_result h :
  (UndoRedoStack.undo u h).1 =
    if (1 <? length (view u h).1)%nat
    then default undefined (last (removelast (view u h).1))
    else undefined.
Proof.
  run_methods.
  destruct (1 <? _)%nat; [|done]. run_methods.
  by arr_simpl.
Qed.

Lemma undo_view h :
  view u (UndoRedoStack.undo u h).2 =
    if (1 <? length (view u h).1)%nat
    then (removelast (view u h).1,
          (view u h).2 ++ [default undefined (last (view u h).1)])
    else view u h.
Proof.
  run_methods.
  destruct (1 <? _)%nat; [|done]. run_methods.
  by arr_simpl.
Qed.

Lemma redo_result h :
  (UndoRedoStack.redo u h).1 =
    if (length (view u h).2 <? 1)%nat
    then undefined
    else default undefined (last (view u h).2).
Proof.
  run_methods.
  by destruct (_ <? 1)%nat.
Qed.

Lemma redo_noop h :
  (view u h).2 = [] → UndoRedoStack.redo u h = (undefined, h).
Proof.
  run_methods. intros [=->]. done.
Qed.

Lemma redo_view h :
  view u (UndoRedoStack.redo u h).2 =
    if (length (view u h).2 <? 1)%nat
    then view u h
    else ((view u h).1 ++ [default undefined (last (view u h).2)],
          removelast (view u h).2).
Proof.
  run_methods.
  destruct (_ <? 1)%nat; [done|]. run_methods.
  by arr_simpl.
Qed.

Lemma latest_run h :
  UndoRedoStack.latest u h = (default undefined (last (view u h).1), h).
Proof. done. Qed.

Lemma pushes_view h vals :
  view u (pushes u vals h).2 =
    ((view u h).1 ++ vals,
     match vals with [] => (view u h).2 | _ => [] end).
Proof.
  revert h. induction vals as [|val vals IH]; intros h; cbn [pushes].
  - unfold ret; cbn [snd]. rewrite app_nil_r. by destruct (view u h).
  - rewrite bind_run, IH, push_view; cbn [fst snd].
    rewrite <- app_assoc. by destruct vals.
Qed.

Lemma undos_view h xs ys rs :
  xs ≠ [] → view u h = (xs ++ ys, rs) →
  view u (undos u (length ys) h).2 = (xs, rs ++ reverse ys).
Proof.
  intros Hxs. revert h rs.
  induction ys as [|y ys IH] using rev_ind; intros h rs Hv; cbn [undos length].
  - unfold ret; cbn [snd]. by rewrite Hv, !app_nil_r.
  - rewrite length_app, Nat.add_comm; cbn [length Nat.add undos].
    rewrite bind_run. rewrite (IH _ (rs ++ [y])).
    + by rewrite reverse_snoc, <- app_assoc.
    + rewrite undo_view, Hv; cbn [fst snd].
      rewrite app_assoc, last_snoc, removelast_last.
      destruct (1 <? _)%nat eqn:Hlen; [done|].
      apply Nat.ltb_ge in Hlen. rewrite !length_app in Hlen. cbn in Hlen.
      destruct xs; [done|]. cbn in Hlen. lia.
Qed.

Lemma redos_view h xs ys rs :
  view u h = (xs, rs ++ reverse ys) →
  view u (redos u (length ys) h).2 = (xs ++ ys, rs).
Proof.
  revert h xs. induction ys as [|y ys IH]; intros h xs Hv; cbn [redos length].
  - unfold ret; cbn [snd]. by rewrite Hv, !app_nil_r.
  - rewrite bind_run. rewrite (IH _ (xs ++ [y])).
    + by rewrite <- app_assoc.
    + rewrite redo_view, Hv; cbn [fst snd].
      rewrite reverse_cons, app_assoc, last_snoc, removelast_last.
      by rewrite length_app, Nat.add_comm.
Qed.

(** The floor: the undo stack is not empty and holds snapshots only. *)
Lemma undo_floor h :
  (view u h).1 ≠ [] ∧ Forall is_Some (view u h).1 →
  (view u (UndoRedoStack.undo u h).2).1 ≠ []
  ∧ Forall is_Some (view u (UndoRedoStack.undo u h).2).1.
Proof.
  intros [Hne Hall]. rewrite undo_view.
  destruct (1 <? _)%nat eqn:Hlen; [|done]. cbn [fst].
  apply Nat.ltb_lt in Hlen.
  destruct (view u h).1 as [|x us _] using rev_ind; [done|].
  rewrite removelast_last. rewrite length_app in Hlen. cbn in Hlen.
  split; [destruct us; [cbn in Hlen; lia | done]|].
  by apply Forall_app in Hall as [? _].
Qed.

Lemma undos_floor h k :
  (view u h).1 ≠ [] ∧ Forall is_Some (view u h).1 →
  (view u (undos u k h).2).1 ≠ []
  ∧ Forall is_Some (view u (undos u k h).2).1.
Proof.
  revert h. induction k as [|k IH]; intros h Hf; cbn [undos]; [done|].
  rewrite bind_run. by apply IH, undo_floor.
Qed.
End ViewFacts.

Section NewFacts.
Context {A : Type}.
Implicit Types (h : gmap loc (list (option A))).

Lemma new_distinct h :
  ActionStack.state (UndoRedoStack.undoStack (UndoRedoStack.new h).1)
  ≠ ActionStack.state (UndoRedoStack.redoStack (UndoRedoStack.new h).1).
Proof.
  run_methods. intros Heq.
  pose proof (is_fresh (dom (<[fresh (dom h) := []]> h))) as Hfresh.
  rewrite Heq in Hfresh. apply Hfresh.
  rewrite dom_insert_L. set_solver.
Qed.

Lemma new_view h :
  view (UndoRedoStack.new h).1 (UndoRedoStack.new h).2 = ([], []).
Proof.
  pose proof (new_distinct h) as Hne. revert Hne.
  run_methods. intros Hne. by arr_simpl.
Qed.
End NewFacts.

(** ** The properties of the specification *)

Section HistoryProperties.
Context {A : Type}.
Implicit Types (h : gmap loc (list (option A))) (ss : list A).

(** C1, floor invariant: on a new [UndoRedoStack], after the pushes of
    one or more snapshots followed by any number of [undo()] calls,
    [latest()] is a snapshot, never [undefined], and the undo stack has
    at least one entry. *)
Theorem floor_invariant h ss (k : nat) :
  (1 ≤ length ss)%nat →
  ∃ (s : A) (n : nat), (floor_run ss k h).1 = (Some s, n) ∧ (1 ≤ n)%nat.
Proof.
  intros Hlen. unfold floor_run. rewrite !bind_run.
  set (u := (UndoRedoStack.new h).1). set (h0 := (UndoRedoStack.new h).2).
  pose proof (new_distinct h) as Hne. fold u in Hne.
  set (h1 := (pushes u (Some <$> ss) h0).2).
  assert (Hf : (view u h1).1 ≠ [] ∧ Forall is_Some (view u h1).1).
  { unfold h1. rewrite pushes_view by done. unfold u, h0.
    rewrite new_view. cbn [fst app]. split.
    - destruct ss; [cbn in Hlen; lia | done].
    - apply Forall_fmap, Forall_true. by eexists. }
  apply (undos_floor u Hne _ k) in Hf as [Hne' Hall].
  rewrite latest_run. unfold ActionStack.length, Array_length, ret.
  cbn [fst snd].
  change (arr (undos u k h1).2 _) with (view u (undos u k h1).2).1.
  destruct (view u (undos u k h1).2).1 as [|x us _] using rev_ind; [done|].
  apply Forall_app in Hall as [_ Hx]. apply Forall_singleton in Hx as [s ->].
  exists s, (length (us ++ [Some s])). rewrite last_snoc. split; [done|].
  rewrite length_app. cbn. lia.
Qed.

Lemma inverse_run_latest h ss1 ss2 (sn : A) :
  ss1 ≠ [] → last (ss1 ++ ss2) = Some sn →
  (inverse_run (ss1 ++ ss2) (length ss2) h).1 = Some sn.
Proof.
  intros Hne1 Hlast. unfold inverse_run. rewrite !bind_run.
  set (u := (UndoRedoStack.new h).1). set (h0 := (UndoRedoStack.new h).2).
  pose proof (new_distinct h) as Hne. fold u in Hne.
  set (h1 := (pushes u (Some <$> ss1 ++ ss2) h0).2).
  assert (Hv1 : view u h1 = ((Some <$> ss1) ++ (Some <$> ss2), [] ++ [])).
  { unfold h1. rewrite pushes_view by done. unfold u, h0.
    rewrite new_view, fmap_app. cbn [fst snd app].
    by destruct ss1. }
  rewrite <- (length_fmap Some ss2).
  apply (undos_view u Hne) in Hv1; [|by destruct ss1].
  apply (redos_view u Hne) in Hv1.
  rewrite latest_run, Hv1. cbn [fst].
  by rewrite <- fmap_app, fmap_last, Hlast.
Qed.

(** C2, undo/redo inverse law: after the pushes of [n >= 2] snapshots
    on a new [UndoRedoStack], one [undo()] followed by one [redo()]
    leaves [latest()] at the last snapshot pushed, and so do [n - 1]
    calls of [undo()] followed by [n - 1] calls of [redo()]. *)
Theorem undo_redo_inverse h ss (sn : A) :
  (2 ≤ length ss)%nat → last ss = Some sn →
  (inverse_run ss 1 h).1 = Some sn
  ∧ (inverse_run ss (length ss - 1) h).1 = Some sn.
Proof.
  intros Hlen Hlast. split.
  - destruct ss as [|s ss _] using rev_ind; [done|].
    apply (inverse_run_latest h ss [s] sn); [|done].
    rewrite length_app in Hlen. cbn in Hlen. destruct ss; [cbn in Hlen; lia|done].
  - destruct ss as [|s1 ss]; [done|].
    replace (length (s1 :: ss) - 1)%nat with (length ss) by (cbn; lia).
    by apply (inverse_run_latest h [s1] ss sn).
Qed.

(** C3, redo-discard law: after [push(a); push(b); undo(); push(c)] on
    a new [UndoRedoStack], [redo()] returns [undefined] and leaves the
    store, hence both stacks, as they were; [a], [b] and [c] are any
    values. *)
Theorem redo_discard h (a b c : option A) :
  UndoRedoStack.redo (discard_prefix a b c h).1 (discard_prefix a b c h).2
  = (undefined, (discard_prefix a b c h).2).
Proof.
  unfold discard_prefix. rewrite !bind_run. unfold ret at 1 2 3; cbn [fst snd].
  set (u := (UndoRedoStack.new h).1).
  pose proof (new_distinct h) as Hne. fold u in Hne.
  apply redo_noop. by rewrite push_view.
Qed.
End HistoryProperties.

(** C4, the scenario: on a new [UndoRedoStack], after the pushes of "A",
    "B" and "C", the three [undo()] calls return "B", "A" and [undefined],
    [redo()] returns "B", and after [push("D")] a further [redo()]
    returns [undefined]. *)
Theorem scenario_results (h : gmap loc (list (option string))) :
  (scenario h).1
  = [Some "B"; Some "A"; undefined; Some "B"; undefined]%string.
Proof.
  unfold scenario. rewrite !bind_run. unfold ret; cbn [fst snd].
  set (u := (UndoRedoStack.new h).1).
  pose proof (new_distinct h) as Hne. fold u in Hne.
  set (h0 := (UndoRedoStack.new h).2).
  set (h1 := (UndoRedoStack.push u (Some "A"%string) h0).2).
  set (h2 := (UndoRedoStack.push u (Some "B"%string) h1).2).
  set (h3 := (UndoRedoStack.push u (Some "C"%string) h2).2).
  set (h4 := (UndoRedoStack.undo u h3).2).
  set (h5 := (UndoRedoStack.undo u h4).2).
  set (h6 := (UndoRedoStack.undo u h5).2).
  set (h7 := (UndoRedoStack.redo u h6).2).
  set (h8 := (UndoRedoStack.push u (Some "D"%string) h7).2).
  pose proof (new_view h) as V0. fold u h0 in V0.
  pose proof (push_view u Hne h0 (Some "A"%string)) as V1.
  fold h1 in V1. rewrite V0 in V1. compute_rhs V1.
  pose proof (push_view u Hne h1 (Some "B"%string)) as V2.
  fold h2 in V2. rewrite V1 in V2. compute_rhs V2.
  pose proof (push_view u Hne h2 (Some "C"%string)) as V3.
  fold h3 in V3. rewrite V2 in V3. compute_rhs V3.
  pose proof (undo_view u Hne h3) as V4.
  fold h4 in V4. rewrite V3 in V4. compute_rhs V4.
  pose proof (undo_view u Hne h4) as V5.
  fold h5 in V5. rewrite V4 in V5. compute_rhs V5.
  pose proof (undo_view u Hne h5) as V6.
  fold h6 in V6. rewrite V5 in V6. compute_rhs V6.
  pose proof (redo_view u Hne h6) as V7.
  fold h7 in V7. rewrite V6 in V7. compute_rhs V7.
  pose proof (push_view u Hne h7 (Some "D"%string)) as V8.
  fold h8 in V8. rewrite V7 in V8. compute_rhs V8.
  rewrite !(undo_result u Hne), !(redo_result u).
  rewrite V3, V4, V5, V6, V8. reflexivity.
Qed.

(** ** [getValues] returns a copy *)

Section CopyIsolation.
Context {A : Type}.
Implicit Types (h : gmap loc (list (option A))) (s : ActionStack.t).

(** Writes to an array other than the one of the stack do not show in
    the results of [pop()] and [current()]. *)
Lemma client_calls_only s copy (prog : list (step A)) h1 h2 :
  copy ≠ ActionStack.state s →
  arr h1 (ActionStack.state s) = arr h2 (ActionStack.state s) →
  (client s copy prog h1).1 = (client s copy (calls_only prog) h2).1.
Proof.
  intros Hne. revert h1 h2.
  induction prog as [|[| |xs] prog IH]; intros h1 h2 Hagree;
    cbn [client calls_only]; [done| | |].
  - rewrite !bind_run. unfold ret; cbn [fst].
    f_equal; [run_methods; by rewrite Hagree|].
    apply IH. run_methods. arr_simpl. by rewrite Hagree.
  - rewrite !bind_run. unfold ret; cbn [fst].
    f_equal; [run_methods; by rewrite Hagree|].
    apply IH. by run_methods.
  - rewrite bind_run. apply IH.
    unfold Array_overwrite; cbn [snd]. by arr_simpl.
Qed.

(** C9, copy isolation: the array returned by [getValues()] is a new
    array with the entries of the stack; the stack is unchanged, and
    whatever a client writes to the returned array, the later [pop()]
    and [current()] calls return what they return without the writes. *)
Theorem getValues_copy_isolation h s (prog : list (step A)) :
  is_Some (h !! ActionStack.state s) →
  let copy := (ActionStack.getValues s h).1 in
  let h' := (ActionStack.getValues s h).2 in
  copy ≠ ActionStack.state s
  ∧ arr h' copy = arr h (ActionStack.state s)
  ∧ arr h' (ActionStack.state s) = arr h (ActionStack.state s)
  ∧ (client s copy prog h').1 = (client s copy (calls_only prog) h').1.
Proof.
  intros Halloc copy h'.
  assert (Hne : copy ≠ ActionStack.state s).
  { intros Heq. pose proof (Array_new_fresh h (arr h (ActionStack.state s))) as Hf.
    change (Array_new (arr h (ActionStack.state s)) h).1 with copy in Hf.
    rewrite Heq in Hf. rewrite Hf in Halloc. by destruct Halloc. }
  split; [done|]. split; [|split].
  - unfold h', copy. run_methods. by arr_simpl.
  - unfold h'. run_methods. fold copy. by arr_simpl.
  - by apply client_calls_only.
Qed.
End CopyIsolation.

(** * Properties of the scan *)

(** ** The test of the sweeps on the converted array

    Every entry of [new Uint32Array(imageData)] is a byte value, below
    [0x01000000]: the mask [0xff000000] leaves nothing of it. *)

Lemma bitand_byte (b : byte) :
  bitand (Some (Z.of_N (Byte.to_N b))) 0xff000000 = 0.
Proof. destruct b; reflexivity. Qed.

Lemma hit_converted (imageData : list byte) (w x y : Z) :
  hit (Uint32Array_from imageData) w x y = false.
Proof.
  unfold hit, typed_get, Uint32Array_from.
  destruct (_ <? 0); [reflexivity|].
  rewrite list_lookup_fmap.
  destruct (imageData !! _) as [b|]; cbn [fmap option_fmap option_map];
    [by rewrite bitand_byte | reflexivity].
Qed.

(** ** The sweeps when no test succeeds *)

Section NoHit.
Variables (data : list Z) (w : Z).
Hypothesis no_hit : ∀ x y, hit data w x y = false.

Lemma row_hit_none y xs : row_hit data w y xs = false.
Proof. induction xs as [|x xs IH]; cbn; [done|]. by rewrite no_hit. Qed.

Lemma first_row_none ys : first_row data w ys = None.
Proof. induction ys as [|y ys IH]; cbn; [done|]. by rewrite row_hit_none. Qed.

Lemma x1_row_none y x1 xs : x1_row data w y x1 xs = x1.
Proof.
  induction xs as [|x xs IH]; cbn; [done|].
  by rewrite no_hit, andb_false_r.
Qed.

Lemma x1_rows_none x1 ys : x1_rows data w x1 ys = x1.
Proof. induction ys as [|y ys IH]; cbn; [done|]. by rewrite x1_row_none. Qed.

Lemma x2_row_none y x2 xs : x2_row data w y x2 xs = x2.
Proof.
  induction xs as [|x xs IH]; cbn; [done|].
  by rewrite no_hit, andb_false_r.
Qed.

Lemma x2_rows_none x1 x2 ys : x2_rows data w x1 x2 ys = x2.
Proof. induction ys as [|y ys IH]; cbn; [done|]. by rewrite x2_row_none. Qed.

(** The seeds and the defaults: [x1 = w], [x2 = 0], [y1 = h - 1] and
    [y2 = y1 + 1]. *)
Lemma scan_data_no_hit h :
  scan_data w h data
  = {| x1 := w; x2 := 0; y1 := h - 1; y2 := h;
       width := - w; height := 1 |}.
Proof.
  unfold scan_data.
  rewrite !first_row_none, x2_rows_none, x1_rows_none. cbn [default].
  f_equal; lia.
Qed.
End NoHit.

(** On the array that [scanPixels] builds no test succeeds, whatever the
    image: the scan returns the seeds and the defaults. *)
Lemma scanPixels_seeds (w h : Z) (imageData : list byte) :
  scanPixels w h imageData
  = {| x1 := w; x2 := 0; y1 := h - 1; y2 := h; width := - w; height := 1 |}.
Proof. apply scan_data_no_hit. intros x y. apply hit_converted. Qed.

(** ** The sweeps past the entries that fail the test *)

Section Skip.
Variables (data : list Z) (w : Z).

Lemma upto_split (lo mid hi : Z) :
  lo ≤ mid < hi → upto lo hi = upto lo mid ++ mid :: upto (mid + 1) hi.
Proof.
  intros Hmid. unfold upto.
  replace (hi - lo) with ((mid - lo) + (hi - mid)) by lia.
  rewrite seqZ_app by lia. f_equal.
  replace (lo + (mid - lo)) with mid by lia.
  rewrite seqZ_cons by lia. do 2 f_equal; lia.
Qed.

Lemma Forall_upto (P : Z → Prop) (lo hi : Z) :
  (∀ v, lo ≤ v < hi → P v) → Forall P (upto lo hi).
Proof. intros HP. apply Forall_seqZ. intros v Hv. apply HP. lia. Qed.

Lemma Forall_downto (P : Z → Prop) (hi lo : Z) :
  (∀ v, lo < v ≤ hi → P v) → Forall P (downto hi lo).
Proof.
  intros HP. apply Forall_fmap, Forall_seqZ. intros v Hv. apply HP. lia.
Qed.

Lemma row_hit_skip y xs1 xs2 :
  Forall (λ x, hit data w x y = false) xs1 →
  row_hit data w y (xs1 ++ xs2) = row_hit data w y xs2.
Proof. induction 1 as [|x xs1 Hx _ IH]; cbn; [done|]. by rewrite Hx. Qed.

Lemma first_row_skip ys1 ys2 :
  Forall (λ y, row_hit data w y (upto 0 w) = false) ys1 →
  first_row data w (ys1 ++ ys2) = first_row data w ys2.
Proof. induction 1 as [|y ys1 Hy _ IH]; cbn; [done|]. by rewrite Hy. Qed.

Lemma x1_row_skip y x1 xs1 xs2 :
  Forall (λ x, hit data w x y = false) xs1 →
  x1_row data w y x1 (xs1 ++ xs2) = x1_row data w y x1 xs2.
Proof.
  induction 1 as [|x xs1 Hx _ IH]; cbn; [done|].
  by rewrite Hx, andb_false_r.
Qed.

Lemma x2_row_skip y x2 xs1 xs2 :
  Forall (λ x, hit data w x y = false) xs1 →
  x2_row data w y x2 (xs1 ++ xs2) = x2_row data w y x2 xs2.
Proof.
  induction 1 as [|x xs1 Hx _ IH]; cbn; [done|].
  by rewrite Hx, andb_false_r.
Qed.
End Skip.

(** ** The sweeps on an array with one hit

    On an array where the test succeeds at column [c] of row [r] and
    nowhere else (packed pixels, one of them with non-zero alpha), the
    sweeps find the row and the column; [y2] takes its default [y1 + 1],
    and the x2 sweep, which looks at the columns above [x1] only, leaves
    [x2] at its seed 0.  The width is [- c]. *)

Section SingleHit.
Variables (data : list Z) (w h c r : Z).
Hypothesis c_range : 0 ≤ c < w.
Hypothesis r_range : 0 ≤ r < h.
Hypothesis single :
  ∀ x y, 0 ≤ x < w → 0 ≤ y < h → hit data w x y = true ↔ x = c ∧ y = r.

Lemma single_hit_at : hit data w c r = true.
Proof. by apply single. Qed.

Lemma single_hit_off x y :
  0 ≤ x < w → 0 ≤ y < h → x ≠ c ∨ y ≠ r → hit data w x y = false.
Proof.
  intros Hx Hy Hoff. apply not_true_is_false. intros Hhit.
  apply single in Hhit as [-> ->]; [|done..]. by destruct Hoff.
Qed.

Lemma single_row_at : row_hit data w r (upto 0 w) = true.
Proof.
  rewrite (upto_split 0 c w) by lia. rewrite row_hit_skip.
  - cbn. by rewrite single_hit_at.
  - apply Forall_upto. intros x Hx. apply single_hit_off; lia.
Qed.

Lemma single_row_off y :
  0 ≤ y < h → y ≠ r → row_hit data w y (upto 0 w) = false.
Proof.
  intros Hy Hne. rewrite <- (app_nil_r (upto 0 w)), row_hit_skip; [done|].
  apply Forall_upto. intros x Hx. apply single_hit_off; [lia..|by right].
Qed.

Lemma single_y1 : first_row data w (upto 0 h) = Some r.
Proof.
  rewrite (upto_split 0 r h) by lia. rewrite first_row_skip.
  - cbn. by rewrite single_row_at.
  - apply Forall_upto. intros y Hy. apply single_row_off; lia.
Qed.

Lemma single_y2 : first_row data w (downto (h - 1) r) = None.
Proof.
  rewrite <- (app_nil_r (downto _ _)), first_row_skip; [done|].
  apply Forall_downto. intros y Hy. apply single_row_off; lia.
Qed.

Lemma single_x1 : x1_row data w r w (upto 0 w) = c.
Proof.
  rewrite (upto_split 0 c w) by lia. rewrite x1_row_skip.
  - cbn. rewrite single_hit_at.
    by replace (c <? w) with true by (symmetry; apply Z.ltb_lt; lia).
  - apply Forall_upto. intros x Hx. apply single_hit_off; lia.
Qed.

Lemma single_x2 : x2_row data w r 0 (downto (w - 1) c) = 0.
Proof.
  rewrite <- (app_nil_r (downto _ _)), x2_row_skip; [done|].
  apply Forall_downto. intros x Hx. apply single_hit_off; lia.
Qed.

Lemma scan_data_single_hit :
  scan_data w h data
  = {| x1 := c; x2 := 0; y1 := r; y2 := r + 1;
       width := - c; height := 1 |}.
Proof.
  unfold scan_data. cbv zeta. rewrite !single_y1. cbn [from_option id].
  rewrite !single_y2. cbn [from_option id].
  replace (upto r (r + 1)) with [r]
    by (unfold upto; replace (r + 1 - r) with 1 by lia; done).
  cbn [x1_rows x2_rows]. rewrite single_x1, single_x2.
  f_equal; lia.
Qed.
End SingleHit.

(** The four sweeps themselves, on an array of packed pixels (the alpha
    byte on top, as [new Uint32Array(imageData.buffer)] would give it on
    a little-endian machine): a 4 by 4 image with every alpha byte set. *)
Lemma scan_data_packed_opaque_4x4 :
  scan_data 4 4 (replicate 16 0xff000000)
  = {| x1 := 0; x2 := 3; y1 := 0; y2 := 3; width := 3; height := 3 |}.
Proof. vm_compute. reflexivity. Qed.

(** The four sweeps on packed pixels, a 2 by 2 image whose only pixel of
    non-zero alpha is in column 1 of row 1: [y2] takes its default
    [y1 + 1], [x1] is the column, and the x2 sweep, which looks at the
    columns above [x1] only, leaves [x2] at 0. *)
Lemma scan_data_packed_single_pixel :
  scan_data 2 2 [0; 0; 0; 0xff000000]
  = {| x1 := 1; x2 := 0; y1 := 1; y2 := 2; width := -1; height := 1 |}.
Proof. vm_compute. reflexivity. Qed.

(** The rectangle of [scanPixels] has [x1 = w], beyond every column: it
    contains no pixel of the image, and its width is negative. *)
Lemma scanPixels_encloses_nothing (w h : Z) (imageData : list byte) (x y : Z) :
  0 ≤ x < w → 0 ≤ y < h → opaque_at imageData w x y →
  ¬ encloses w h imageData (scanPixels w h imageData).
Proof.
  intros Hx Hy Hop Henc. destruct (Henc x y Hx Hy Hop) as [[Hx1 _] _].
  rewrite scanPixels_seeds in Hx1. cbn in Hx1. lia.
Qed.

Lemma scanPixels_width_negative (w h : Z) (imageData : list byte) :
  0 < w →
  x2 (scanPixels w h imageData) < x1 (scanPixels w h imageData)
  ∧ width (scanPixels w h imageData) < 0.
Proof. intros Hw. rewrite scanPixels_seeds. cbn. lia. Qed.

(** ** The properties of the specification *)

(** C5, bounds of the pixels of non-zero alpha: on the 2 by 2 image whose
    only such pixel is in column 1 of row 1, [scanPixels] returns
    [x1 = 2], [x2 = 0], [y1 = 1], [y2 = 2], which is not the minimal
    rectangle of that pixel and does not even contain it. *)
Theorem scanPixels_single_pixel_2x2 :
  PixelBuffer 2 2 single_pixel_2x2
  ∧ opaque_at single_pixel_2x2 2 1 1
  ∧ scanPixels 2 2 single_pixel_2x2
    = {| x1 := 2; x2 := 0; y1 := 1; y2 := 2; width := -2; height := 1 |}
  ∧ ¬ encloses 2 2 single_pixel_2x2 (scanPixels 2 2 single_pixel_2x2)
  ∧ ¬ minimal_rectangle 2 2 single_pixel_2x2 (scanPixels 2 2 single_pixel_2x2).
Proof.
  assert (Hop : opaque_at single_pixel_2x2 2 1 1) by (by exists xff).
  assert (Henc : ¬ encloses 2 2 single_pixel_2x2 (scanPixels 2 2 single_pixel_2x2)).
  { intros Henc. destruct (Henc 1 1) as [[Hx _] _]; [lia..|done|].
    rewrite scanPixels_seeds in Hx. cbn in Hx. lia. }
  split; [by vm_compute|]. split; [done|]. split; [apply scanPixels_seeds|].
  split; [done|]. by intros [? _].
Qed.

(** C6, all-transparent 10 by 10 image: the scan returns [y1 = 9] (the
    default [h - 1]), [y2 = 10] (the default [y1 + 1]) and [x1 = 10] (the
    seed [w]). *)
Theorem scanPixels_transparent_10x10 (imageData : list byte) :
  PixelBuffer 10 10 imageData →
  (∀ x y, 0 ≤ x < 10 → 0 ≤ y < 10 → alpha imageData 10 x y = Some x00) →
  y1 (scanPixels 10 10 imageData) = 9
  ∧ y2 (scanPixels 10 10 imageData) = 10
  ∧ x1 (scanPixels 10 10 imageData) = 10.
Proof. intros _ _. by rewrite scanPixels_seeds. Qed.

(** C7, fully opaque 4 by 4 image: on the image with every byte [0xff]
    the scan returns the seeds and the defaults, [x1 = 4], [x2 = 0],
    [y1 = 3], [y2 = 4], [width = -4], [height = 1], not the rectangle from
    0 to 3. *)
Theorem scanPixels_opaque_4x4 :
  PixelBuffer 4 4 (replicate 64 xff)
  ∧ (∀ x y, 0 ≤ x < 4 → 0 ≤ y < 4 → opaque_at (replicate 64 xff) 4 x y)
  ∧ scanPixels 4 4 (replicate 64 xff)
    = {| x1 := 4; x2 := 0; y1 := 3; y2 := 4; width := -4; height := 1 |}.
Proof.
  split; [by vm_compute|]. split; [|apply scanPixels_seeds].
  intros x y Hx Hy. exists xff. split; [|done].
  unfold alpha. apply lookup_replicate_2. lia.
Qed.

(** There is an image with a pixel of non-zero alpha, the only one and
    in column 1, on which the scan returns [x2 < x1] and a negative
    width. *)
Lemma scanPixels_negative_width :
  ∃ (w h : Z) (imageData : list byte),
    PixelBuffer w h imageData
    ∧ (∀ x y, 0 ≤ x < w → 0 ≤ y < h →
         opaque_at imageData w x y ↔ x = 1 ∧ y = 0)
    ∧ x2 (scanPixels w h imageData) < x1 (scanPixels w h imageData)
    ∧ width (scanPixels w h imageData) < 0.
Proof.
  exists 2, 1, [x00; x00; x00; x00; x00; x00; x00; xff].
  split; [by vm_compute|]. split; [|by rewrite scanPixels_seeds].
  intros x y Hx Hy.
  assert (y = 0) as -> by lia.
  assert (x = 0 ∨ x = 1) as [-> | ->] by lia.
  - split; [|lia]. intros (b & [= <-] & Hb). done.
  - split; [done|]. intros _. by exists xff.
Qed.

(** C10, the single pixel in column [c = 1]: on the 2 by 1 image whose
    only pixel of non-zero alpha is in column 1, the sweeps on packed
    pixels set [x1 = 1] and leave [x2 = 0], width [-1]; [scanPixels]
    itself, on the array it builds, returns [x1 = 2], the seed, and width
    [-2]: [x1] is not set to the column of the pixel. *)
Theorem scanPixels_column_one_pixel_2x1 :
  PixelBuffer 2 1 column_one_pixel_2x1
  ∧ (∀ x y, 0 ≤ x < 2 → 0 ≤ y < 1 →
       opaque_at column_one_pixel_2x1 2 x y ↔ x = 1 ∧ y = 0)
  ∧ scanPixels 2 1 column_one_pixel_2x1
    = {| x1 := 2; x2 := 0; y1 := 0; y2 := 1; width := -2; height := 1 |}
  ∧ x1 (scanPixels 2 1 column_one_pixel_2x1) ≠ 1
  ∧ width (scanPixels 2 1 column_one_pixel_2x1) ≠ 0 - 1
  ∧ scan_data 2 1 packed_column_one_pixel_2x1
    = {| x1 := 1; x2 := 0; y1 := 0; y2 := 1; width := -1; height := 1 |}.
Proof.
  split; [by vm_compute|]. split.
  { intros x y Hx Hy.
    assert (y = 0) as -> by lia.
    assert (x = 0 ∨ x = 1) as [-> | ->] by lia.
    - split; [|lia]. intros (b & [= <-] & Hb). done.
    - split; [done|]. intros _. by exists xff. }
  rewrite scanPixels_seeds. cbn [x1 width].
  split; [reflexivity|]. split; [lia|]. split; [lia|].
  vm_compute. reflexivity.
Qed.

(** * Properties of the alignment *)

Section AlignProperties.
Import Align.
Local Open Scope Q_scope.

(** C8, horizontal alignment: for ['left'] the new left coordinate is
    the current one minus the left of the bounding rectangle minus the
    scanned [x1]; for ['center-h'] it is that value plus half the width
    of the canvas minus half the scanned width.  With left 50, bounding
    left 50 and [x1 = 5] the first is -5; with canvas width 800 and
    scanned width 100 the second is 345. *)
Theorem alignObject_left_center_h
    (canvas : Canvas) (bound : BoundingRect) (realBound : RealBBox)
    (o : FabricObject) (ch bt t : Q) (x2' y1' y2' w' h' : Z) :
  left (alignObject canvas bound realBound o "left")
    = left o - bound_left bound - inject_Z (x1 realBound)
  ∧ left (alignObject canvas bound realBound o "center-h")
    = (left o - bound_left bound - inject_Z (x1 realBound))
      + (canvas_width canvas / 2) - (inject_Z (width realBound) / 2)
  ∧ left (alignObject canvas {| bound_left := 50; bound_top := bt |}
            {| x1 := 5; x2 := x2'; y1 := y1'; y2 := y2';
               width := w'; height := h' |}
            {| left := 50; top := t |} "left") == -5
  ∧ left (alignObject {| canvas_width := 800; canvas_height := ch |}
            {| bound_left := 50; bound_top := bt |}
            {| x1 := 5; x2 := x2'; y1 := y1'; y2 := y2';
               width := 100; height := h' |}
            {| left := 50; top := t |} "center-h") == 345.
Proof. repeat split. Qed.
End AlignProperties.

(** * Instances *)

Lemma floor_invariant_witness :
  (1 ≤ length ["A"; "B"]%string)%nat
  ∧ ∃ (s : string) (n : nat),
      (floor_run ["A"; "B"]%string 5 ∅).1 = (Some s, n) ∧ (1 ≤ n)%nat.
Proof.
  split; [cbn; lia|]. apply (floor_invariant ∅ ["A"; "B"]%string 5). cbn; lia.
Defined.

Lemma undo_redo_inverse_witness :
  (2 ≤ length ["A"; "B"; "C"]%string)%nat
  ∧ last ["A"; "B"; "C"]%string = Some "C"%string
  ∧ (inverse_run ["A"; "B"; "C"]%string 1 ∅).1 = Some "C"%string
  ∧ (inverse_run ["A"; "B"; "C"]%string (length ["A"; "B"; "C"]%string - 1) ∅).1
    = Some "C"%string.
Proof.
  split; [cbn; lia|]. split; [reflexivity|].
  apply (undo_redo_inverse ∅ ["A"; "B"; "C"]%string "C"%string);
    [cbn; lia | reflexivity].
Defined.

Lemma getValues_copy_isolation_witness :
  let h : gmap loc (list (option string)) :=
    {[ 1%positive := [Some "A"; Some "B"]%string ]} in
  let s := {| ActionStack.state := 1%positive |} in
  let prog := [Mutate []; CallCurrent; Mutate [Some "Z"%string]; CallPop; CallPop] in
  is_Some (h !! ActionStack.state s)
  ∧ (let copy := (ActionStack.getValues s h).1 in
     let h' := (ActionStack.getValues s h).2 in
     copy ≠ ActionStack.state s
     ∧ arr h' copy = arr h (ActionStack.state s)
     ∧ arr h' (ActionStack.state s) = arr h (ActionStack.state s)
     ∧ (client s copy prog h').1 = (client s copy (calls_only prog) h').1).
Proof.
  intros h s prog.
  assert (Halloc : is_Some (h !! ActionStack.state s)) by (by eexists).
  split; [exact Halloc|]. exact (getValues_copy_isolation h s prog Halloc).
Defined.

Lemma scanPixels_transparent_10x10_witness :
  PixelBuffer 10 10 (replicate 400 x00)
  ∧ (∀ x y, 0 ≤ x < 10 → 0 ≤ y < 10 →
       alpha (replicate 400 x00) 10 x y = Some x00)
  ∧ y1 (scanPixels 10 10 (replicate 400 x00)) = 9
  ∧ y2 (scanPixels 10 10 (replicate 400 x00)) = 10
  ∧ x1 (scanPixels 10 10 (replicate 400 x00)) = 10.
Proof.
  assert (Hbuf : PixelBuffer 10 10 (replicate 400 x00)) by (by vm_compute).
  assert (Halpha : ∀ x y, 0 ≤ x < 10 → 0 ≤ y < 10 →
            alpha (replicate 400 x00) 10 x y = Some x00).
  { intros x y Hx Hy. unfold alpha. apply lookup_replicate_2. lia. }
  split; [exact Hbuf|]. split; [exact Halpha|].
  exact (scanPixels_transparent_10x10 (replicate 400 x00) Hbuf Halpha).
Defined.

(** * Further properties of the history *)

(** ** [ActionStack] *)

Section ActionStackProperties.
Context {A : Type}.
Implicit Types (h : gmap loc (list (option A))) (s : ActionStack.t).

(** [push(val)] followed by [pop()] returns [val] and leaves the entries
    of the stack as they were before the two calls. *)
Theorem ActionStack_push_pop h s (val : option A) :
  (ActionStack.pop s (ActionStack.push s val h).2).1 = val
  ∧ arr (ActionStack.pop s (ActionStack.push s val h).2).2 (ActionStack.state s)
    = arr h (ActionStack.state s).
Proof.
  run_methods. arr_simpl. by rewrite last_snoc, removelast_last.
Qed.

(** On an empty stack [pop()] and [current()] return [undefined],
    [isEmpty()] is true, and the stack is still empty after [pop()]. *)
Theorem ActionStack_empty h s :
  arr h (ActionStack.state s) = [] →
  (ActionStack.pop s h).1 = undefined
  ∧ (ActionStack.current s h).1 = undefined
  ∧ (ActionStack.isEmpty s h).1 = true
  ∧ arr (ActionStack.pop s h).2 (ActionStack.state s) = [].
Proof.
  intros Hempty. run_methods. arr_simpl. by rewrite Hempty.
Qed.

(** [clear()] empties the stack, whatever it held: afterwards the length
    is 0, [isEmpty()] is true and [current()] is [undefined]; every other
    array of the store is as before. *)
Theorem ActionStack_clear h s :
  (ActionStack.length s (ActionStack.clear s h).2).1 = 0%nat
  ∧ (ActionStack.isEmpty s (ActionStack.clear s h).2).1 = true
  ∧ (ActionStack.current s (ActionStack.clear s h).2).1 = undefined
  ∧ ∀ l, l ≠ ActionStack.state s → (ActionStack.clear s h).2 !! l = h !! l.
Proof.
  run_methods. arr_simpl. repeat split.
  intros l Hl. by rewrite lookup_insert_ne.
Qed.

(** [current()] reads the top without removing it: after [push(val)] it
    returns [val] any number of times, and the length stays the same. *)
Theorem ActionStack_current_keeps h s (val : option A) :
  let h1 := (ActionStack.push s val h).2 in
  (ActionStack.current s h1).1 = val
  ∧ (ActionStack.current s h1).2 = h1
  ∧ (ActionStack.length s h1).1 = S (ActionStack.length s h).1.
Proof.
  run_methods. arr_simpl. rewrite last_snoc, length_app. cbn.
  repeat split. lia.
Qed.
End ActionStackProperties.

(** ** [UndoRedoStack] *)

Section UndoRedoProperties.
Context {A : Type}.
Implicit Types (h : gmap loc (list (option A))) (u : UndoRedoStack.t).

Lemma undo_noop h u :
  (length (view u h).1 ≤ 1)%nat → UndoRedoStack.undo u h = (undefined, h).
Proof.
  intros Hlen. run_methods.
  by replace (1 <? _)%nat with false by (symmetry; apply Nat.ltb_ge; exact Hlen).
Qed.

(** At the floor, that is with at most one entry in the undo stack,
    [undo()] returns [undefined] and writes nothing. *)
Theorem undo_at_floor h u :
  (length (view u h).1 ≤ 1)%nat →
  UndoRedoStack.undo u h = (undefined, h).
Proof. apply undo_noop. Qed.

(** With an empty redo stack [redo()] returns [undefined] and writes
    nothing. *)
Theorem redo_without_future h u :
  (view u h).2 = [] →
  UndoRedoStack.redo u h = (undefined, h).
Proof. apply redo_noop. Qed.

(** On a new history both [undo()] and [redo()] return [undefined] and
    write nothing, and [latest()] is [undefined]. *)
Theorem new_history_noops h :
  let u := (UndoRedoStack.new (A := A) h).1 in
  let h0 := (UndoRedoStack.new (A := A) h).2 in
  UndoRedoStack.undo u h0 = (undefined, h0)
  ∧ UndoRedoStack.redo u h0 = (undefined, h0)
  ∧ (UndoRedoStack.latest u h0).1 = undefined.
Proof.
  intros u h0. pose proof (new_view h) as Hv. fold u h0 in Hv.
  split; [|split].
  - apply undo_noop. rewrite Hv. cbn. lia.
  - apply redo_noop. by rewrite Hv.
  - by rewrite latest_run, Hv.
Qed.

(** When [redo()] moves an entry, the value it returns is the new
    [latest()]. *)
Theorem redo_returns_latest h u :
  (view u h).2 ≠ [] →
  (UndoRedoStack.redo u h).1
  = (UndoRedoStack.latest u (UndoRedoStack.redo u h).2).1.
Proof.
  run_methods. intros Hrs.
  destruct (arr h (ActionStack.state (UndoRedoStack.redoStack u)))
    as [|x rs _] using rev_ind; [done|].
  rewrite length_app, Nat.add_comm. cbn [length Nat.add Nat.ltb Nat.leb negb].
  run_methods. arr_simpl. by rewrite last_snoc.
Qed.

(** [clear()] empties both stacks: afterwards [latest()] is [undefined]
    and [undo()] and [redo()] return [undefined] and write nothing. *)
Theorem UndoRedoStack_clear h u :
  let h1 := (UndoRedoStack.clear u h).2 in
  view u h1 = ([], [])
  ∧ (UndoRedoStack.latest u h1).1 = undefined
  ∧ UndoRedoStack.undo u h1 = (undefined, h1)
  ∧ UndoRedoStack.redo u h1 = (undefined, h1).
Proof.
  intros h1.
  assert (Hv : view u h1 = ([], [])).
  { unfold h1. run_methods.
    destruct (decide (ActionStack.state (UndoRedoStack.redoStack u)
                      = ActionStack.state (UndoRedoStack.undoStack u)))
      as [-> | Hne]; by arr_simpl. }
  split; [done|]. split; [by rewrite latest_run, Hv|]. split.
  - apply undo_noop. rewrite Hv. cbn. lia.
  - apply redo_noop. by rewrite Hv.
Qed.

(** The constructor does not check that its two stacks are different
    ones.  When they are over the same array, [push(val)] appends [val]
    and then clears that array: the history is empty after every push,
    and [latest()] is [undefined]. *)
Theorem shared_array_push h u (val : option A) :
  ActionStack.state (UndoRedoStack.undoStack u)
  = ActionStack.state (UndoRedoStack.redoStack u) →
  view u (UndoRedoStack.push u val h).2 = ([], [])
  ∧ (UndoRedoStack.latest u (UndoRedoStack.push u val h).2).1 = undefined.
Proof.
  intros Heq. run_methods. rewrite Heq. by arr_simpl.
Qed.

(** [getValues()] returns two new arrays, different from each other and
    from the arrays of the two stacks, with the entries of the undo and of
    the redo stack; the stacks are as before. *)
Theorem UndoRedoStack_getValues_copies h u :
  is_Some (h !! ActionStack.state (UndoRedoStack.undoStack u)) →
  is_Some (h !! ActionStack.state (UndoRedoStack.redoStack u)) →
  let vu := (UndoRedoStack.getValues u h).1.1 in
  let vr := (UndoRedoStack.getValues u h).1.2 in
  let h' := (UndoRedoStack.getValues u h).2 in
  vu ≠ vr
  ∧ vu ≠ ActionStack.state (UndoRedoStack.undoStack u)
  ∧ vu ≠ ActionStack.state (UndoRedoStack.redoStack u)
  ∧ vr ≠ ActionStack.state (UndoRedoStack.undoStack u)
  ∧ vr ≠ ActionStack.state (UndoRedoStack.redoStack u)
  ∧ (arr h' vu, arr h' vr) = view u h
  ∧ view u h' = view u h.
Proof.
  intros Hu Hr vu vr h'.
  set (lu := ActionStack.state (UndoRedoStack.undoStack u)) in *.
  set (lr := ActionStack.state (UndoRedoStack.redoStack u)) in *.
  set (h1 := <[vu := arr h lu]> h).
  assert (Evu : vu = fresh (dom h)) by reflexivity.
  assert (Evr : vr = fresh (dom h1)) by reflexivity.
  assert (Eh' : h' = <[vr := arr h1 lr]> h1) by reflexivity.
  assert (Hvu : vu ∉ dom h) by (rewrite Evu; apply is_fresh).
  assert (Hvr : vr ∉ dom h1) by (rewrite Evr; apply is_fresh).
  apply elem_of_dom in Hu, Hr.
  assert (Hvr' : vr ≠ vu ∧ vr ∉ dom h).
  { unfold h1 in Hvr. rewrite dom_insert_L in Hvr. set_solver. }
  destruct Hvr' as [Hne Hvr'].
  assert (vu ≠ lu) by (intros ->; done).
  assert (vu ≠ lr) by (intros ->; done).
  assert (vr ≠ lu) by (intros ->; done).
  assert (vr ≠ lr) by (intros ->; done).
  repeat (split; [done|]).
  unfold view. fold lu lr. rewrite Eh'. unfold h1.
  split; f_equal; by arr_simpl.
Qed.

(** One [undo()] that moves an entry, then [redo()]: the two stacks hold
    what they held before, and [redo()] returns what [latest()] was. *)
Theorem undo_then_redo h u :
  ActionStack.state (UndoRedoStack.undoStack u)
  ≠ ActionStack.state (UndoRedoStack.redoStack u) →
  (1 < length (view u h).1)%nat →
  let h1 := (UndoRedoStack.undo u h).2 in
  (UndoRedoStack.redo u h1).1 = (UndoRedoStack.latest u h).1
  ∧ view u (UndoRedoStack.redo u h1).2 = view u h.
Proof.
  intros Hne Hlen h1. unfold h1.
  rewrite redo_result, redo_view, !undo_view, latest_run by done.
  apply Nat.ltb_lt in Hlen. rewrite Hlen. cbn [fst snd].
  destruct (view u h) as [us rs]. cbn [fst snd] in *.
  destruct us as [|x us _] using rev_ind; [done|].
  rewrite !last_snoc, !removelast_last, length_app, Nat.add_comm. done.
Qed.

(** One [redo()] that moves an entry, then [undo()]: the two stacks hold
    what they held before, and [undo()] returns what [latest()] was. *)
Theorem redo_then_undo h u :
  ActionStack.state (UndoRedoStack.undoStack u)
  ≠ ActionStack.state (UndoRedoStack.redoStack u) →
  (view u h).1 ≠ [] → (view u h).2 ≠ [] →
  let h1 := (UndoRedoStack.redo u h).2 in
  (UndoRedoStack.undo u h1).1 = (UndoRedoStack.latest u h).1
  ∧ view u (UndoRedoStack.undo u h1).2 = view u h.
Proof.
  intros Hne Hus Hrs h1. unfold h1.
  rewrite undo_result, undo_view, !redo_view, latest_run by done.
  destruct (view u h) as [us rs]. cbn [fst snd] in *.
  destruct rs as [|x rs _] using rev_ind; [done|].
  rewrite length_app, Nat.add_comm. cbn [length Nat.add Nat.ltb Nat.leb fst snd].
  rewrite !last_snoc, !removelast_last, length_app, Nat.add_comm.
  destruct us as [|y us]; [done|]. cbn [length Nat.add Nat.leb].
  split; [|done]. cbn [default from_option id]. done.
Qed.

(** [undo()] and [redo()] move the boundary between the two stacks and
    keep the sequence of all entries; [push(val)] drops the entries of the
    redo stack and appends [val]. *)
Theorem timeline_kept h u (val : option A) :
  ActionStack.state (UndoRedoStack.undoStack u)
  ≠ ActionStack.state (UndoRedoStack.redoStack u) →
  timeline (view u (UndoRedoStack.undo u h).2) = timeline (view u h)
  ∧ timeline (view u (UndoRedoStack.redo u h).2) = timeline (view u h)
  ∧ timeline (view u (UndoRedoStack.push u val h).2) = (view u h).1 ++ [val].
Proof.
  intros Hne. rewrite undo_view, redo_view, push_view by done.
  destruct (view u h) as [us rs]. unfold timeline. cbn [fst snd].
  split; [|split].
  - destruct (1 <? _)%nat eqn:Hlen; [|done]. cbn [fst snd].
    destruct us as [|x us _] using rev_ind; [done|].
    by rewrite last_snoc, removelast_last, reverse_snoc, <- app_assoc.
  - destruct rs as [|x rs _] using rev_ind; [done|].
    rewrite length_app, Nat.add_comm. cbn [length Nat.add Nat.ltb Nat.leb fst snd].
    by rewrite last_snoc, removelast_last, reverse_snoc, <- app_assoc.
  - by rewrite reverse_nil, app_nil_r.
Qed.

(** Every call keeps the undo stack non-empty once it is, and keeps both
    stacks free of [undefined] entries. *)
Lemma calls_keep_floor h u (cs : list (call A)) :
  ActionStack.state (UndoRedoStack.undoStack u)
  ≠ ActionStack.state (UndoRedoStack.redoStack u) →
  (view u h).1 ≠ [] ∧ Forall is_Some (view u h).1 ∧ Forall is_Some (view u h).2 →
  (view u (calls u cs h).2).1 ≠ []
  ∧ Forall is_Some (view u (calls u cs h).2).1
  ∧ Forall is_Some (view u (calls u cs h).2).2.
Proof.
  intros Hne. revert h.
  induction cs as [|[s| |] cs IH]; intros h (Hus & Fus & Frs);
    cbn [calls]; [done|rewrite bind_run; apply IH..].
  - rewrite push_view by done. cbn [fst snd]. split; [by destruct (view u h).1|].
    split; [|done]. apply Forall_app. split; [done|]. by repeat constructor.
  - rewrite undo_view by done.
    destruct (1 <? _)%nat eqn:Hlen; [|done]. cbn [fst snd].
    apply Nat.ltb_lt in Hlen.
    destruct (view u h).1 as [|x us _] using rev_ind; [done|].
    rewrite removelast_last, last_snoc.
    rewrite length_app in Hlen. cbn in Hlen.
    apply Forall_app in Fus as [Fus Fx].
    split; [destruct us; [cbn in Hlen; lia|done]|].
    split; [done|]. by apply Forall_app.
  - rewrite redo_view by done.
    destruct (_ <? 1)%nat eqn:Hlen; [done|]. cbn [fst snd].
    destruct (view u h).2 as [|x rs _] using rev_ind; [done|].
    rewrite removelast_last, last_snoc.
    apply Forall_app in Frs as [Frs Fx].
    split; [by destruct (view u h).1|].
    split; [by apply Forall_app|done].
Qed.

(** The floor under any calls: on a new history, after a first push and
    then any sequence of pushes, [undo()] and [redo()] calls, [latest()]
    is a snapshot and the undo stack has at least one entry. *)
Theorem calls_floor h (s0 : A) (cs : list (call A)) :
  ∃ (s : A) (n : nat), (calls_run s0 cs h).1 = (Some s, n) ∧ (1 ≤ n)%nat.
Proof.
  unfold calls_run. rewrite !bind_run.
  set (u := (UndoRedoStack.new h).1). set (h0 := (UndoRedoStack.new h).2).
  pose proof (new_distinct h) as Hne. fold u in Hne.
  set (h1 := (UndoRedoStack.push u (Some s0) h0).2).
  assert (Hf : (view u h1).1 ≠ [] ∧ Forall is_Some (view u h1).1
               ∧ Forall is_Some (view u h1).2).
  { unfold h1. rewrite push_view by done. unfold u, h0. rewrite new_view.
    cbn. split; [done|]. split; [|done]. by repeat constructor. }
  apply (calls_keep_floor _ u cs Hne) in Hf as (Hus & Fus & _).
  rewrite latest_run. unfold ActionStack.length, Array_length, ret.
  cbn [fst snd].
  change (arr (calls u cs h1).2 _) with (view u (calls u cs h1).2).1.
  destruct (view u (calls u cs h1).2).1 as [|x us _] using rev_ind; [done|].
  apply Forall_app in Fus as [_ Hx]. apply Forall_singleton in Hx as [s ->].
  exists s, (length (us ++ [Some s])). rewrite last_snoc. split; [done|].
  rewrite length_app. cbn. lia.
Qed.
End UndoRedoProperties.

(** * Further properties of the scan

    What the four sweeps of [scanPixels] (lines 57-98) compute, for any
    contents of the array [data] they read. *)

Section Ranges.
Lemma upto_nil (lo hi : Z) : hi ≤ lo → upto lo hi = [].
Proof. intros. unfold upto. apply seqZ_nil. lia. Qed.

Lemma upto_cons (lo hi : Z) : lo < hi → upto lo hi = lo :: upto (lo + 1) hi.
Proof.
  intros. rewrite (upto_split lo lo hi) by lia. by rewrite upto_nil by lia.
Qed.

Lemma downto_nil (hi lo : Z) : hi ≤ lo → downto hi lo = [].
Proof. intros. unfold downto. rewrite seqZ_nil by lia. done. Qed.

Lemma downto_cons (hi lo : Z) : lo < hi → downto hi lo = hi :: downto (hi - 1) lo.
Proof.
  intros. unfold downto. rewrite seqZ_cons by lia. cbn [fmap list_fmap].
  f_equal; [lia|].
  replace (Z.succ 0) with (1 + 0) by lia.
  rewrite <- fmap_add_seqZ, <- list_fmap_compose.
  replace (Z.pred (hi - lo)) with (hi - 1 - lo) by lia.
  apply list_fmap_ext. intros _ i _. cbn. lia.
Qed.

Lemma Forall_upto_inv (P : Z → Prop) (lo hi : Z) :
  Forall P (upto lo hi) → ∀ v, lo ≤ v < hi → P v.
Proof.
  intros HP v Hv. unfold upto in HP. rewrite Forall_seqZ in HP. apply HP. lia.
Qed.

Lemma Forall_downto_inv (P : Z → Prop) (hi lo : Z) :
  Forall P (downto hi lo) → ∀ v, lo < v ≤ hi → P v.
Proof.
  intros HP v Hv. unfold downto in HP.
  rewrite Forall_fmap, Forall_seqZ in HP.
  replace v with (hi - (hi - v)) by lia. apply (HP (hi - v)). lia.
Qed.
End Ranges.

Section Sweeps.
Variables (data : list Z) (w : Z).

Lemma row_hit_true y xs :
  row_hit data w y xs = true ↔ ∃ x, x ∈ xs ∧ hit data w x y = true.
Proof.
  induction xs as [|x xs IH]; cbn.
  - split; [done|]. intros (x & Hx & _). by apply elem_of_nil in Hx.
  - destruct (hit data w x y) eqn:Hhit.
    + split; [|done]. intros _. exists x. split; [left|done].
    + rewrite IH. split.
      * intros (x' & Hx' & Hh). exists x'. split; [by right|done].
      * intros (x' & Hx' & Hh). apply elem_of_cons in Hx' as [-> | Hx'];
          [congruence|]. by exists x'.
Qed.

Lemma row_hit_upto_true y :
  row_hit data w y (upto 0 w) = true
  ↔ ∃ x, 0 ≤ x < w ∧ hit data w x y = true.
Proof.
  rewrite row_hit_true. unfold upto. setoid_rewrite elem_of_seqZ.
  split; intros (x & Hx & Hh); exists x; (split; [lia|done]).
Qed.

Lemma first_row_None ys :
  first_row data w ys = None →
  Forall (λ y, row_hit data w y (upto 0 w) = false) ys.
Proof.
  induction ys as [|y ys IH]; cbn; [done|].
  destruct (row_hit _ _ y _) eqn:Hrow; [done|]. intros H. by constructor; auto.
Qed.

Lemma first_row_upto_Some (n : nat) : ∀ lo hi y,
  Z.to_nat (hi - lo) = n →
  first_row data w (upto lo hi) = Some y →
  lo ≤ y < hi
  ∧ row_hit data w y (upto 0 w) = true
  ∧ ∀ y', lo ≤ y' < y → row_hit data w y' (upto 0 w) = false.
Proof.
  induction n as [|n IH]; intros lo hi y Hn.
  - by rewrite upto_nil by lia.
  - rewrite upto_cons by lia. cbn [first_row].
    destruct (row_hit _ _ lo _) eqn:Hrow.
    + intros [= <-]. split; [lia|]. split; [done|]. lia.
    + intros Hy. apply IH in Hy as (Hr & Hhit & Hbefore); [|lia].
      split; [lia|]. split; [done|]. intros y' Hy'.
      destruct (decide (y' = lo)) as [-> |]; [done|]. apply Hbefore. lia.
Qed.

Lemma first_row_downto_Some (n : nat) : ∀ hi lo y,
  Z.to_nat (hi - lo) = n →
  first_row data w (downto hi lo) = Some y →
  lo < y ≤ hi
  ∧ row_hit data w y (upto 0 w) = true
  ∧ ∀ y', y < y' ≤ hi → row_hit data w y' (upto 0 w) = false.
Proof.
  induction n as [|n IH]; intros hi lo y Hn.
  - by rewrite downto_nil by lia.
  - rewrite downto_cons by lia. cbn [first_row].
    destruct (row_hit _ _ hi _) eqn:Hrow.
    + intros [= <-]. split; [lia|]. split; [done|]. lia.
    + intros Hy. apply IH in Hy as (Hr & Hhit & Hafter); [|lia].
      split; [lia|]. split; [done|]. intros y' Hy'.
      destruct (decide (y' = hi)) as [-> |]; [done|]. apply Hafter. lia.
Qed.

(** The inner loop of the x1 sweep returns [x1] or a smaller column with
    a hit, and nothing right of a hit. *)
Lemma x1_row_upto (n : nat) : ∀ lo y x1,
  Z.to_nat (w - lo) = n →
  (x1_row data w y x1 (upto lo w) = x1
   ∨ (lo ≤ x1_row data w y x1 (upto lo w) < w
      ∧ x1_row data w y x1 (upto lo w) < x1
      ∧ hit data w (x1_row data w y x1 (upto lo w)) y = true))
  ∧ ∀ x, lo ≤ x < w → hit data w x y = true →
      x1_row data w y x1 (upto lo w) ≤ x.
Proof.
  induction n as [|n IH]; intros lo y x1 Hn.
  - rewrite upto_nil by lia. cbn. split; [by left | lia].
  - rewrite upto_cons by lia. cbn [x1_row].
    destruct (lo <? x1) eqn:Hlt; cbn [andb];
      [destruct (hit data w lo y) eqn:Hhit|].
    + apply Z.ltb_lt in Hlt. split; [right; repeat split; (lia || done)|lia].
    + destruct (IH (lo + 1) y x1 ltac:(lia)) as [Hr Hmin]. split.
      * destruct Hr as [? | (? & ? & ?)]; [by left|right]. repeat split; (lia || done).
      * intros x Hx Hh. destruct (decide (x = lo)) as [-> |]; [congruence|].
        apply Hmin; [lia|done].
    + apply Z.ltb_ge in Hlt.
      destruct (IH (lo + 1) y x1 ltac:(lia)) as [Hr Hmin]. split.
      * destruct Hr as [? | (? & ? & ?)]; [by left|right]. repeat split; (lia || done).
      * intros x Hx Hh. destruct (decide (x = lo)) as [-> |].
        -- destruct Hr as [-> | (? & ? & ?)]; lia.
        -- apply Hmin; [lia|done].
Qed.

Lemma x1_rows_spec ys : ∀ x1,
  x1_rows data w x1 ys ≤ x1
  ∧ (x1_rows data w x1 ys = x1
     ∨ ∃ y, y ∈ ys ∧ 0 ≤ x1_rows data w x1 ys < w
            ∧ hit data w (x1_rows data w x1 ys) y = true)
  ∧ ∀ x y, y ∈ ys → 0 ≤ x < w → hit data w x y = true →
      x1_rows data w x1 ys ≤ x.
Proof.
  induction ys as [|y ys IH]; intros x1; cbn [x1_rows].
  - split; [lia|]. split; [by left|]. intros x y Hy. by apply elem_of_nil in Hy.
  - destruct (x1_row_upto (Z.to_nat (w - 0)) 0 y x1 eq_refl) as [Hr Hmin].
    destruct (IH (x1_row data w y x1 (upto 0 w))) as (Hle & Hor & Hall).
    assert (Hle1 : x1_row data w y x1 (upto 0 w) ≤ x1)
      by (destruct Hr as [-> | (? & ? & ?)]; lia).
    split; [lia|]. split.
    + destruct Hor as [Heq | (y' & Hy' & ? & ?)].
      * rewrite Heq. destruct Hr as [? | (? & ? & ?)]; [by left|right].
        exists y. split; [left|]. split; [lia|done].
      * right. exists y'. split; [by right|done].
    + intros x y' Hy' Hx Hh. apply elem_of_cons in Hy' as [-> | Hy'].
      * specialize (Hmin x Hx Hh). lia.
      * by apply (Hall x y').
Qed.

(** The inner loop of the x2 sweep returns [x2] or a greater column with
    a hit, and nothing left of a hit among the columns it looks at. *)
Lemma x2_row_downto (n : nat) : ∀ hi lo y x2,
  Z.to_nat (hi - lo) = n →
  (x2_row data w y x2 (downto hi lo) = x2
   ∨ (lo < x2_row data w y x2 (downto hi lo) ≤ hi
      ∧ x2 < x2_row data w y x2 (downto hi lo)
      ∧ hit data w (x2_row data w y x2 (downto hi lo)) y = true))
  ∧ ∀ x, lo < x ≤ hi → hit data w x y = true →
      x ≤ x2_row data w y x2 (downto hi lo).
Proof.
  induction n as [|n IH]; intros hi lo y x2 Hn.
  - rewrite downto_nil by lia. cbn. split; [by left | lia].
  - rewrite downto_cons by lia. cbn [x2_row].
    destruct (hi >? x2) eqn:Hgt; cbn [andb];
      [destruct (hit data w hi y) eqn:Hhit|].
    + apply Z.gtb_lt in Hgt. split; [right; repeat split; (lia || done)|lia].
    + destruct (IH (hi - 1) lo y x2 ltac:(lia)) as [Hr Hmax]. split.
      * destruct Hr as [? | (? & ? & ?)]; [by left|right]. repeat split; (lia || done).
      * intros x Hx Hh. destruct (decide (x = hi)) as [-> |]; [congruence|].
        apply Hmax; [lia|done].
    + assert (hi ≤ x2) by (rewrite Z.gtb_ltb in Hgt; apply Z.ltb_ge in Hgt; lia).
      destruct (IH (hi - 1) lo y x2 ltac:(lia)) as [Hr Hmax]. split.
      * destruct Hr as [? | (? & ? & ?)]; [by left|right]. repeat split; (lia || done).
      * intros x Hx Hh. destruct (decide (x = hi)) as [-> |].
        -- destruct Hr as [-> | (? & ? & ?)]; lia.
        -- apply Hmax; [lia|done].
Qed.

Lemma x2_rows_spec x1 ys : ∀ x2,
  x2 ≤ x2_rows data w x1 x2 ys
  ∧ (x2_rows data w x1 x2 ys = x2
     ∨ ∃ y, y ∈ ys ∧ x1 < x2_rows data w x1 x2 ys < w
            ∧ hit data w (x2_rows data w x1 x2 ys) y = true)
  ∧ ∀ x y, y ∈ ys → x1 < x < w → hit data w x y = true →
      x ≤ x2_rows data w x1 x2 ys.
Proof.
  induction ys as [|y ys IH]; intros x2; cbn [x2_rows].
  - split; [lia|]. split; [by left|]. intros x y Hy. by apply elem_of_nil in Hy.
  - destruct (x2_row_downto (Z.to_nat (w - 1 - x1)) (w - 1) x1 y x2 eq_refl)
      as [Hr Hmax].
    destruct (IH (x2_row data w y x2 (downto (w - 1) x1))) as (Hle & Hor & Hall).
    assert (Hle1 : x2 ≤ x2_row data w y x2 (downto (w - 1) x1))
      by (destruct Hr as [-> | (? & ? & ?)]; lia).
    split; [lia|]. split.
    + destruct Hor as [Heq | (y' & Hy' & ? & ?)].
      * rewrite Heq. destruct Hr as [? | (? & ? & ?)]; [by left|right].
        exists y. split; [left|]. split; [lia|done].
      * right. exists y'. split; [by right|done].
    + intros x y' Hy' Hx Hh. apply elem_of_cons in Hy' as [-> | Hy'].
      * specialize (Hmax x ltac:(lia) Hh). lia.
      * by apply (Hall x y').
Qed.
End Sweeps.

Section ScanProperties.
Variables (data : list Z) (w h : Z).

(** The two defaults of the row sweeps, unfolded. *)
Lemma scan_data_y1 :
  y1 (scan_data w h data) = default (h - 1) (first_row data w (upto 0 h)).
Proof. reflexivity. Qed.

Lemma scan_data_y2 :
  y2 (scan_data w h data)
  = default (y1 (scan_data w h data) + 1)
      (first_row data w (downto (h - 1) (y1 (scan_data w h data)))).
Proof. reflexivity. Qed.

Lemma scan_data_x1 :
  x1 (scan_data w h data)
  = x1_rows data w w (upto (y1 (scan_data w h data)) (y2 (scan_data w h data))).
Proof. reflexivity. Qed.

Lemma scan_data_x2 :
  x2 (scan_data w h data)
  = x2_rows data w (x1 (scan_data w h data)) 0
      (upto (y1 (scan_data w h data)) (y2 (scan_data w h data))).
Proof. reflexivity. Qed.

Lemma scan_data_y1_range : 1 ≤ h → 0 ≤ y1 (scan_data w h data) < h.
Proof.
  intros Hh. rewrite scan_data_y1.
  destruct (first_row data w (upto 0 h)) as [y|] eqn:Hy;
    cbn [default from_option id]; [|lia].
  apply (first_row_upto_Some _ _ _ _ _ _ eq_refl) in Hy. lia.
Qed.

Lemma scan_data_y2_range :
  y1 (scan_data w h data) < y2 (scan_data w h data)
  ∧ (1 ≤ h → y2 (scan_data w h data) ≤ h).
Proof.
  rewrite scan_data_y2.
  destruct (first_row data w (downto _ _)) as [y|] eqn:Hy;
    cbn [default from_option id].
  - apply (first_row_downto_Some _ _ _ _ _ _ eq_refl) in Hy. lia.
  - split; [lia|]. intros Hh. pose proof (scan_data_y1_range Hh). lia.
Qed.

(** Rows of the result: for an image of at least one row,
    [0 <= y1 < y2 <= h]; the height is [y2 - y1] and at least 1, whatever
    the array holds. *)
Theorem scan_data_rows :
  1 ≤ h →
  0 ≤ y1 (scan_data w h data) < y2 (scan_data w h data)
  ∧ y2 (scan_data w h data) ≤ h
  ∧ height (scan_data w h data)
    = y2 (scan_data w h data) - y1 (scan_data w h data)
  ∧ 1 ≤ height (scan_data w h data).
Proof.
  intros Hh. pose proof (scan_data_y1_range Hh).
  destruct scan_data_y2_range as [Hlt Hle]. specialize (Hle Hh).
  split; [lia|]. split; [done|].
  assert (Hheight : height (scan_data w h data)
            = y2 (scan_data w h data) - y1 (scan_data w h data)) by reflexivity.
  split; [done|lia].
Qed.

(** Columns of the result: [0 <= x1 <= w], and [x2] is either still its
    seed 0 or a column right of [x1]; so the width [x2 - x1] is positive
    or is [- x1]. *)
Theorem scan_data_columns :
  0 ≤ w →
  0 ≤ x1 (scan_data w h data) ≤ w
  ∧ (x2 (scan_data w h data) = 0
     ∨ x1 (scan_data w h data) < x2 (scan_data w h data) < w)
  ∧ width (scan_data w h data)
    = x2 (scan_data w h data) - x1 (scan_data w h data).
Proof.
  intros Hw. split; [|split; [|reflexivity]].
  - rewrite scan_data_x1.
    destruct (x1_rows_spec data w (upto (y1 (scan_data w h data))
                (y2 (scan_data w h data))) w) as (Hle & [-> | (y & _ & Hr & _)] & _); lia.
  - rewrite scan_data_x2.
    destruct (x2_rows_spec data w (x1 (scan_data w h data))
                (upto (y1 (scan_data w h data)) (y2 (scan_data w h data))) 0)
      as (_ & [-> | (y & _ & Hr & _)] & _); [by left|by right].
Qed.

End ScanProperties.

(** The array that [scanPixels] builds holds byte values, on which no
    test succeeds: for every image the result is made of the seeds and
    the defaults, [x1 = w], [x2 = 0], [y1 = h - 1], [y2 = h], with width
    [- w] and height 1. *)
Theorem scanPixels_any_image (w h : Z) (imageData : list byte) :
  scanPixels w h imageData
  = {| x1 := w; x2 := 0; y1 := h - 1; y2 := h; width := - w; height := 1 |}.
Proof. apply scan_data_no_hit. intros x y. apply hit_converted. Qed.

(** * Further properties of the alignment *)

Section AlignFurther.
Import Align.
Local Open Scope Q_scope.
Variables (canvas : Canvas) (bound : BoundingRect) (realBound : RealBBox).
Variable (o : FabricObject).

(** The three horizontal positions set [left] and keep [top]; the three
    vertical positions set [top] and keep [left]. *)
Theorem alignObject_axes :
  top (alignObject canvas bound realBound o "left") = top o
  ∧ top (alignObject canvas bound realBound o "center-h") = top o
  ∧ top (alignObject canvas bound realBound o "right") = top o
  ∧ left (alignObject canvas bound realBound o "top") = left o
  ∧ left (alignObject canvas bound realBound o "center-v") = left o
  ∧ left (alignObject canvas bound realBound o "bottom") = left o.
Proof. repeat split. Qed.

(** A position other than the six known ones leaves the object as it
    is. *)
Theorem alignObject_other_position (pos : string) :
  pos ∉ ["left"; "center-h"; "right"; "top"; "center-v"; "bottom"]%string →
  alignObject canvas bound realBound o pos = o.
Proof.
  intros Hpos. unfold alignObject.
  repeat match goal with
  | |- context [String.eqb pos ?s] =>
      destruct (String.eqb_spec pos s) as [Heq | _];
        [exfalso; apply Hpos; rewrite Heq; set_solver|]
  end.
  done.
Qed.

(** Where the scanned rectangle ends up, for coordinates that are
    integers of magnitude at most [2 ^ 50] (on which the code computes
    without rounding).  The rectangle starts at [bound.left + x1] on the
    canvas and moves with the object: after ['left'] its left edge is at
    0, after ['right'] its right edge ([width] further) is at the width of
    the canvas, and after ['center-h'] its middle is at half the width of
    the canvas. *)
Theorem alignObject_horizontal_targets :
  exact_int (left o) → exact_int (bound_left bound) →
  exact_int (canvas_width canvas) →
  (Z.abs (x1 realBound) ≤ 2 ^ 50)%Z → (Z.abs (width realBound) ≤ 2 ^ 50)%Z →
  let edge pos :=
    bound_left bound + inject_Z (x1 realBound)
    + (left (alignObject canvas bound realBound o pos) - left o) in
  edge "left"%string == 0
  ∧ edge "right"%string + inject_Z (width realBound) == canvas_width canvas
  ∧ edge "center-h"%string + inject_Z (width realBound) / 2
    == canvas_width canvas / 2.
Proof. intros _ _ _ _ _. cbn. repeat split; field. Qed.

(** The same on the vertical axis, with [bound.top + y1], [height] and
    the height of the canvas, again for integer coordinates of magnitude
    at most [2 ^ 50]. *)
Theorem alignObject_vertical_targets :
  exact_int (top o) → exact_int (bound_top bound) →
  exact_int (canvas_height canvas) →
  (Z.abs (y1 realBound) ≤ 2 ^ 50)%Z → (Z.abs (height realBound) ≤ 2 ^ 50)%Z →
  let edge pos :=
    bound_top bound + inject_Z (y1 realBound)
    + (top (alignObject canvas bound realBound o pos) - top o) in
  edge "top"%string == 0
  ∧ edge "bottom"%string + inject_Z (height realBound) == canvas_height canvas
  ∧ edge "center-v"%string + inject_Z (height realBound) / 2
    == canvas_height canvas / 2.
Proof. intros _ _ _ _ _. cbn. repeat split; field. Qed.

(** For integer coordinates of magnitude at most [2 ^ 50], the centred
    position is halfway between the two edge positions, on both axes. *)
Theorem alignObject_center_midpoint :
  exact_int (left o) → exact_int (bound_left bound) →
  exact_int (canvas_width canvas) →
  exact_int (top o) → exact_int (bound_top bound) →
  exact_int (canvas_height canvas) →
  (Z.abs (x1 realBound) ≤ 2 ^ 50)%Z → (Z.abs (width realBound) ≤ 2 ^ 50)%Z →
  (Z.abs (y1 realBound) ≤ 2 ^ 50)%Z → (Z.abs (height realBound) ≤ 2 ^ 50)%Z →
  left (alignObject canvas bound realBound o "center-h")
  == (left (alignObject canvas bound realBound o "left")
      + left (alignObject canvas bound realBound o "right")) / 2
  ∧ top (alignObject canvas bound realBound o "center-v")
    == (top (alignObject canvas bound realBound o "top")
        + top (alignObject canvas bound realBound o "bottom")) / 2.
Proof. intros _ _ _ _ _ _ _ _ _ _. cbn. split; field. Qed.
End AlignFurther.

Section AlignAfterScan.
Import Align.
Local Open Scope Q_scope.

(** [alignObject] on the bounds that [scanPixels] returns
    ([getRealBBox], lines 110-112), for integer coordinates of magnitude
    at most [2 ^ 50]: for every image of [w] by [h] pixels ['left'] moves the object to [left - bound.left - w], ['right'] to
    [left - bound.left + canvas.width], ['top'] to
    [top - bound.top - (h - 1)] and ['bottom'] to
    [top - bound.top - (h - 1) + canvas.height - 1]; the pixels of the
    image play no part. *)
Theorem alignObject_after_scan (canvas : Canvas) (bound : BoundingRect)
    (o : FabricObject) (w h : Z) (imageData : list byte) :
  exact_int (left o) → exact_int (bound_left bound) →
  exact_int (canvas_width canvas) →
  exact_int (top o) → exact_int (bound_top bound) →
  exact_int (canvas_height canvas) →
  (0 ≤ w ≤ 2 ^ 50)%Z → (1 ≤ h ≤ 2 ^ 50)%Z →
  let realBound := scanPixels w h imageData in
  left (alignObject canvas bound realBound o "left")
    == left o - bound_left bound - inject_Z w
  ∧ left (alignObject canvas bound realBound o "right")
    == left o - bound_left bound + canvas_width canvas
  ∧ top (alignObject canvas bound realBound o "top")
    == top o - bound_top bound - inject_Z (h - 1)
  ∧ top (alignObject canvas bound realBound o "bottom")
    == top o - bound_top bound - inject_Z (h - 1) + canvas_height canvas - 1.
Proof.
  intros _ _ _ _ _ _ _ _ realBound.
  unfold realBound. rewrite scanPixels_seeds. cbn.
  rewrite inject_Z_opp. repeat split; ring.
Qed.
End AlignAfterScan.

(** * Properties of [inRange] *)

Section InRange.
Local Open Scope Q_scope.

Lemma inRange_true (radius cursorX cursorY targetX targetY : Q) :
  inRange radius cursorX cursorY targetX targetY = true
  ↔ (targetX - radius <= cursorX ∧ cursorX <= targetX + radius)
    ∧ (targetY - radius <= cursorY ∧ cursorY <= targetY + radius).
Proof.
  unfold inRange. rewrite andb_true_iff, !Qle_bool_iff, !Qabs_Qle_condition.
  split; intros [[? ?] [? ?]]; repeat split; lra.
Qed.

(** For a radius and coordinates that are integers of magnitude at most
    [2 ^ 50] (the difference [cursor - target] is then computed without
    rounding), [inRange] holds exactly on the square of half side
    [radius] around the target, sides included: each coordinate of the
    cursor is within [radius] of that of the target. *)
Theorem inRange_square (radius cursorX cursorY targetX targetY : Q) :
  exact_int radius →
  exact_int cursorX → exact_int cursorY →
  exact_int targetX → exact_int targetY →
  inRange radius cursorX cursorY targetX targetY = true
  ↔ (targetX - radius <= cursorX ∧ cursorX <= targetX + radius)
    ∧ (targetY - radius <= cursorY ∧ cursorY <= targetY + radius).
Proof. intros _ _ _ _ _. apply inRange_true. Qed.

(** [inRange] is the same with cursor and target exchanged. *)
Theorem inRange_symmetric (radius cursorX cursorY targetX targetY : Q) :
  inRange radius cursorX cursorY targetX targetY
  = inRange radius targetX targetY cursorX cursorY.
Proof.
  apply eq_true_iff_eq. rewrite !inRange_true.
  split; intros [[? ?] [? ?]]; repeat split; lra.
Qed.

(** With a negative radius nothing is in range, not even the target
    itself. *)
Theorem inRange_negative_radius (radius cursorX cursorY targetX targetY : Q) :
  radius < 0 →
  inRange radius cursorX cursorY targetX targetY = false.
Proof.
  intros Hr. apply not_true_is_false. rewrite inRange_true.
  intros [[? ?] _]. lra.
Qed.

(** A larger radius keeps what was in range. *)
Theorem inRange_monotone (radius radius' cursorX cursorY targetX targetY : Q) :
  radius <= radius' →
  inRange radius cursorX cursorY targetX targetY = true →
  inRange radius' cursorX cursorY targetX targetY = true.
Proof.
  intros Hr. rewrite !inRange_true.
  intros [[? ?] [? ?]]; repeat split; lra.
Qed.
End InRange.

(** * Properties of [getActiveFontStyle] and of the style buttons *)

(** While the text is edited, [getActiveFontStyle] returns the first
    style of the selection in which the named property is truthy, and
    [undefined] when there is none; otherwise it returns the empty
    string. *)
Theorem getActiveFontStyle_first_style
    (selectionStyles : list (gmap string JsValue)) (styleName : string) :
  (∀ s, getActiveFontStyle true selectionStyles styleName = StyleObject s ↔
        ∃ before after,
          selectionStyles = before ++ s :: after
          ∧ js_truthy (style_get s styleName) = true
          ∧ Forall (λ s', js_truthy (style_get s' styleName) = false) before)
  ∧ (getActiveFontStyle true selectionStyles styleName = StyleUndefined ↔
       Forall (λ s', js_truthy (style_get s' styleName) = false) selectionStyles)
  ∧ getActiveFontStyle false selectionStyles styleName = StyleString "".
Proof.
  unfold getActiveFontStyle. split; [|split; [|done]].
  - induction selectionStyles as [|s0 l IH]; intros s; cbn [List.find].
    + split; [done|]. intros (before & after & Heq & _). by destruct before.
    + destruct (js_truthy (style_get s0 styleName)) eqn:Ht.
      * split.
        -- intros [= <-]. by exists [], l.
        -- intros ([|b before] & after & Heq & Hs & Hb).
           ++ by injection Heq as <- _.
           ++ injection Heq as <- _. apply Forall_cons in Hb as [Hb _]. congruence.
      * rewrite IH. split.
        -- intros (before & after & -> & Hs & Hb).
           exists (s0 :: before), after. split; [done|]. split; [done|].
           by constructor.
        -- intros ([|b before] & after & Heq & Hs & Hb).
           ++ injection Heq as <- _. congruence.
           ++ injection Heq as <- ->. apply Forall_cons in Hb as [_ Hb].
              by exists before, after.
  - induction selectionStyles as [|s0 l IH]; cbn [List.find]; [done|].
    destruct (js_truthy (style_get s0 styleName)) eqn:Ht.
    + split; [done|]. intros Hall. apply Forall_cons in Hall as [Hall _]. congruence.
    + rewrite IH. split; [by constructor|]. intros Hall.
      by apply Forall_cons in Hall as [_ Hall].
Qed.

(** The bold and the italic button never switch the style off: when the
    name of the style to set is not the empty string, the value passed on
    is that name, whether the text is edited or not and whatever the
    styles of the selection. *)
Theorem toggle_value_always_on (isEditing : bool)
    (selectionStyles : list (gmap string JsValue)) (styleName on : string) :
  on ≠ ""%string →
  toggle_value isEditing selectionStyles styleName on = on.
Proof.
  intros Hon. unfold toggle_value, getActiveFontStyle.
  destruct isEditing; [by destruct (List.find _ _)|].
  cbn [strict_eq_string].
  destruct (String.eqb_spec "" on) as [Heq|]; [by subst|done].
Qed.

(** The underline and the linethrough button pass [true] whenever the
    text is not edited; while it is edited they pass [true] exactly when
    no style of the selection has the property. *)
Theorem flag_value_spec (selectionStyles : list (gmap string JsValue))
    (styleName : string) :
  flag_value false selectionStyles styleName = true
  ∧ (flag_value true selectionStyles styleName = true ↔
       Forall (λ s, js_truthy (style_get s styleName) = false) selectionStyles).
Proof.
  unfold flag_value, getActiveFontStyle. split; [reflexivity|].
  induction selectionStyles as [|s0 l IH]; cbn [List.find]; [done|].
  destruct (js_truthy (style_get s0 styleName)) eqn:Ht.
  - split; [done|]. intros Hall. apply Forall_cons in Hall as [Hall _]. congruence.
  - rewrite IH. split; [by constructor|]. intros Hall.
    by apply Forall_cons in Hall as [_ Hall].
Qed.

(** * Instances of the further properties *)

Lemma ActionStack_empty_witness :
  arr (∅ : gmap loc (list (option string))) 1%positive = []
  ∧ (ActionStack.pop {| ActionStack.state := 1%positive |}
       (∅ : gmap loc (list (option string)))).1 = undefined
  ∧ (ActionStack.current {| ActionStack.state := 1%positive |}
       (∅ : gmap loc (list (option string)))).1 = undefined
  ∧ (ActionStack.isEmpty {| ActionStack.state := 1%positive |}
       (∅ : gmap loc (list (option string)))).1 = true
  ∧ arr (ActionStack.pop {| ActionStack.state := 1%positive |}
           (∅ : gmap loc (list (option string)))).2 1%positive = [].
Proof.
  split; [reflexivity|].
  apply (ActionStack_empty ∅ {| ActionStack.state := 1%positive |}). reflexivity.
Defined.

Lemma undo_at_floor_witness :
  (length (view history12 ({[ 1%positive := [Some "A"%string] ]}
             : gmap loc (list (option string)))).1 ≤ 1)%nat
  ∧ UndoRedoStack.undo history12
      ({[ 1%positive := [Some "A"%string] ]} : gmap loc (list (option string)))
    = (undefined, {[ 1%positive := [Some "A"%string] ]}).
Proof.
  assert (Hlen : (length (view history12 ({[ 1%positive := [Some "A"%string] ]}
             : gmap loc (list (option string)))).1 ≤ 1)%nat)
    by (vm_compute; lia).
  split; [exact Hlen|]. exact (undo_at_floor _ history12 Hlen).
Defined.

Lemma redo_without_future_witness :
  (view history12 ({[ 1%positive := [Some "A"%string] ]}
     : gmap loc (list (option string)))).2 = []
  ∧ UndoRedoStack.redo history12
      ({[ 1%positive := [Some "A"%string] ]} : gmap loc (list (option string)))
    = (undefined, {[ 1%positive := [Some "A"%string] ]}).
Proof.
  split; [reflexivity|]. apply (redo_without_future _ history12). reflexivity.
Defined.

Lemma redo_returns_latest_witness :
  (view history12 store12).2 ≠ []
  ∧ (UndoRedoStack.redo history12 store12).1
    = (UndoRedoStack.latest history12
         (UndoRedoStack.redo history12 store12).2).1.
Proof.
  assert (Hrs : (view history12 store12).2 ≠ []) by (by vm_compute).
  split; [exact Hrs|]. exact (redo_returns_latest store12 history12 Hrs).
Defined.

Lemma shared_array_push_witness :
  let u := {| UndoRedoStack.undoStack := {| ActionStack.state := 1%positive |};
              UndoRedoStack.redoStack := {| ActionStack.state := 1%positive |} |} in
  ActionStack.state (UndoRedoStack.undoStack u)
  = ActionStack.state (UndoRedoStack.redoStack u)
  ∧ view u (UndoRedoStack.push u (Some "D"%string) store12).2 = ([], [])
  ∧ (UndoRedoStack.latest u
       (UndoRedoStack.push u (Some "D"%string) store12).2).1 = undefined.
Proof.
  intros u. split; [reflexivity|].
  apply (shared_array_push store12 u (Some "D"%string)). reflexivity.
Defined.

Lemma UndoRedoStack_getValues_copies_witness :
  is_Some (store12 !! ActionStack.state (UndoRedoStack.undoStack history12))
  ∧ is_Some (store12 !! ActionStack.state (UndoRedoStack.redoStack history12))
  ∧ (let vu := (UndoRedoStack.getValues history12 store12).1.1 in
     let vr := (UndoRedoStack.getValues history12 store12).1.2 in
     let h' := (UndoRedoStack.getValues history12 store12).2 in
     vu ≠ vr
     ∧ vu ≠ ActionStack.state (UndoRedoStack.undoStack history12)
     ∧ vu ≠ ActionStack.state (UndoRedoStack.redoStack history12)
     ∧ vr ≠ ActionStack.state (UndoRedoStack.undoStack history12)
     ∧ vr ≠ ActionStack.state (UndoRedoStack.redoStack history12)
     ∧ (arr h' vu, arr h' vr) = view history12 store12
     ∧ view history12 h' = view history12 store12).
Proof.
  assert (Hu : is_Some (store12
            !! ActionStack.state (UndoRedoStack.undoStack history12)))
    by (by eexists).
  assert (Hr : is_Some (store12
            !! ActionStack.state (UndoRedoStack.redoStack history12)))
    by (by eexists).
  split; [exact Hu|]. split; [exact Hr|].
  exact (UndoRedoStack_getValues_copies store12 history12 Hu Hr).
Defined.

Lemma undo_then_redo_witness :
  ActionStack.state (UndoRedoStack.undoStack history12)
  ≠ ActionStack.state (UndoRedoStack.redoStack history12)
  ∧ (1 < length (view history12 store12).1)%nat
  ∧ (let h1 := (UndoRedoStack.undo history12 store12).2 in
     (UndoRedoStack.redo history12 h1).1
     = (UndoRedoStack.latest history12 store12).1
     ∧ view history12 (UndoRedoStack.redo history12 h1).2
       = view history12 store12).
Proof.
  assert (Hne : ActionStack.state (UndoRedoStack.undoStack history12)
                ≠ ActionStack.state (UndoRedoStack.redoStack history12))
    by (by vm_compute).
  assert (Hlen : (1 < length (view history12 store12).1)%nat)
    by (vm_compute; lia).
  split; [exact Hne|]. split; [exact Hlen|].
  exact (undo_then_redo store12 history12 Hne Hlen).
Defined.

Lemma redo_then_undo_witness :
  ActionStack.state (UndoRedoStack.undoStack history12)
  ≠ ActionStack.state (UndoRedoStack.redoStack history12)
  ∧ (view history12 store12).1 ≠ []
  ∧ (view history12 store12).2 ≠ []
  ∧ (let h1 := (UndoRedoStack.redo history12 store12).2 in
     (UndoRedoStack.undo history12 h1).1
     = (UndoRedoStack.latest history12 store12).1
     ∧ view history12 (UndoRedoStack.undo history12 h1).2
       = view history12 store12).
Proof.
  assert (Hne : ActionStack.state (UndoRedoStack.undoStack history12)
                ≠ ActionStack.state (UndoRedoStack.redoStack history12))
    by (by vm_compute).
  assert (Hus : (view history12 store12).1 ≠ []) by (by vm_compute).
  assert (Hrs : (view history12 store12).2 ≠ []) by (by vm_compute).
  split; [exact Hne|]. split; [exact Hus|]. split; [exact Hrs|].
  exact (redo_then_undo store12 history12 Hne Hus Hrs).
Defined.

Lemma timeline_kept_witness :
  ActionStack.state (UndoRedoStack.undoStack history12)
  ≠ ActionStack.state (UndoRedoStack.redoStack history12)
  ∧ timeline (view history12 (UndoRedoStack.undo history12 store12).2)
    = timeline (view history12 store12)
  ∧ timeline (view history12 (UndoRedoStack.redo history12 store12).2)
    = timeline (view history12 store12)
  ∧ timeline (view history12
                (UndoRedoStack.push history12 (Some "D"%string) store12).2)
    = (view history12 store12).1 ++ [Some "D"%string].
Proof.
  assert (Hne : ActionStack.state (UndoRedoStack.undoStack history12)
                ≠ ActionStack.state (UndoRedoStack.redoStack history12))
    by (by vm_compute).
  split; [exact Hne|].
  exact (timeline_kept store12 history12 (Some "D"%string) Hne).
Defined.

Lemma scan_data_rows_witness :
  1 ≤ 2
  ∧ 0 ≤ y1 (scan_data 2 2 packed_single_pixel_2x2)
      < y2 (scan_data 2 2 packed_single_pixel_2x2)
  ∧ y2 (scan_data 2 2 packed_single_pixel_2x2) ≤ 2
  ∧ height (scan_data 2 2 packed_single_pixel_2x2)
    = y2 (scan_data 2 2 packed_single_pixel_2x2)
      - y1 (scan_data 2 2 packed_single_pixel_2x2)
  ∧ 1 ≤ height (scan_data 2 2 packed_single_pixel_2x2).
Proof.
  split; [lia|]. apply (scan_data_rows packed_single_pixel_2x2 2 2). lia.
Defined.

Lemma scan_data_columns_witness :
  0 ≤ 2
  ∧ 0 ≤ x1 (scan_data 2 2 packed_single_pixel_2x2) ≤ 2
  ∧ (x2 (scan_data 2 2 packed_single_pixel_2x2) = 0
     ∨ x1 (scan_data 2 2 packed_single_pixel_2x2)
       < x2 (scan_data 2 2 packed_single_pixel_2x2) < 2)
  ∧ width (scan_data 2 2 packed_single_pixel_2x2)
    = x2 (scan_data 2 2 packed_single_pixel_2x2)
      - x1 (scan_data 2 2 packed_single_pixel_2x2).
Proof.
  split; [lia|]. apply (scan_data_columns packed_single_pixel_2x2 2 2). lia.
Defined.

Lemma alignObject_other_position_witness :
  ("middle"%string
     ∉ ["left"; "center-h"; "right"; "top"; "center-v"; "bottom"]%string)
  ∧ Align.alignObject
      {| Align.canvas_width := 800; Align.canvas_height := 600 |}
      {| Align.bound_left := 50; Align.bound_top := 20 |}
      {| x1 := 5; x2 := 104; y1 := 2; y2 := 30; width := 99; height := 28 |}
      {| Align.left := 50; Align.top := 20 |} "middle"
    = {| Align.left := 50; Align.top := 20 |}.
Proof.
  assert (Hpos : "middle"%string
            ∉ ["left"; "center-h"; "right"; "top"; "center-v"; "bottom"]%string).
  { intros Hin. repeat (apply elem_of_cons in Hin as [Hin | Hin]; [discriminate|]).
    by apply elem_of_nil in Hin. }
  split; [exact Hpos|].
  exact (alignObject_other_position _ _ _ _ "middle"%string Hpos).
Defined.

Lemma inRange_negative_radius_witness :
  (-1 < 0)%Q ∧ inRange (-1) 3 4 3 4 = false.
Proof.
  split; [reflexivity|]. apply (inRange_negative_radius (-1) 3 4 3 4). reflexivity.
Defined.

Lemma toggle_value_always_on_witness :
  "bold"%string ≠ ""%string
  ∧ toggle_value true [{[ "fontWeight"%string := JsString "bold" ]}]
      "fontWeight" "bold" = "bold"%string.
Proof.
  split; [discriminate|].
  apply (toggle_value_always_on true _ "fontWeight" "bold"). discriminate.
Defined.

(** Integers of small magnitude are exact. *)
Ltac solve_exact_int z :=
  exists z; split; [reflexivity | by vm_compute].

Lemma alignObject_horizontal_targets_witness :
  exact_int (Align.left object_50_20)
  ∧ exact_int (Align.bound_left bound_50_20)
  ∧ exact_int (Align.canvas_width canvas_800x600)
  ∧ Z.abs (x1 bbox_5_2) ≤ 2 ^ 50
  ∧ Z.abs (width bbox_5_2) ≤ 2 ^ 50
  ∧ (let edge pos :=
       (Align.bound_left bound_50_20 + inject_Z (x1 bbox_5_2)
        + (Align.left (Align.alignObject canvas_800x600 bound_50_20 bbox_5_2
                         object_50_20 pos)
           - Align.left object_50_20))%Q in
     (edge "left"%string == 0)%Q
     ∧ (edge "right"%string + inject_Z (width bbox_5_2)
        == Align.canvas_width canvas_800x600)%Q
     ∧ (edge "center-h"%string + inject_Z (width bbox_5_2) / 2
        == Align.canvas_width canvas_800x600 / 2)%Q).
Proof.
  assert (H1 : exact_int (Align.left object_50_20)) by solve_exact_int 50.
  assert (H2 : exact_int (Align.bound_left bound_50_20)) by solve_exact_int 50.
  assert (H3 : exact_int (Align.canvas_width canvas_800x600))
    by solve_exact_int 800.
  assert (H4 : Z.abs (x1 bbox_5_2) ≤ 2 ^ 50) by (by vm_compute).
  assert (H5 : Z.abs (width bbox_5_2) ≤ 2 ^ 50) by (by vm_compute).
  repeat (split; [assumption|]).
  exact (alignObject_horizontal_targets canvas_800x600 bound_50_20 bbox_5_2
           object_50_20 H1 H2 H3 H4 H5).
Defined.

Lemma alignObject_vertical_targets_witness :
  exact_int (Align.top object_50_20)
  ∧ exact_int (Align.bound_top bound_50_20)
  ∧ exact_int (Align.canvas_height canvas_800x600)
  ∧ Z.abs (y1 bbox_5_2) ≤ 2 ^ 50
  ∧ Z.abs (height bbox_5_2) ≤ 2 ^ 50
  ∧ (let edge pos :=
       (Align.bound_top bound_50_20 + inject_Z (y1 bbox_5_2)
        + (Align.top (Align.alignObject canvas_800x600 bound_50_20 bbox_5_2
                        object_50_20 pos)
           - Align.top object_50_20))%Q in
     (edge "top"%string == 0)%Q
     ∧ (edge "bottom"%string + inject_Z (height bbox_5_2)
        == Align.canvas_height canvas_800x600)%Q
     ∧ (edge "center-v"%string + inject_Z (height bbox_5_2) / 2
        == Align.canvas_height canvas_800x600 / 2)%Q).
Proof.
  assert (H1 : exact_int (Align.top object_50_20)) by solve_exact_int 20.
  assert (H2 : exact_int (Align.bound_top bound_50_20)) by solve_exact_int 20.
  assert (H3 : exact_int (Align.canvas_height canvas_800x600))
    by solve_exact_int 600.
  assert (H4 : Z.abs (y1 bbox_5_2) ≤ 2 ^ 50) by (by vm_compute).
  assert (H5 : Z.abs (height bbox_5_2) ≤ 2 ^ 50) by (by vm_compute).
  repeat (split; [assumption|]).
  exact (alignObject_vertical_targets canvas_800x600 bound_50_20 bbox_5_2
           object_50_20 H1 H2 H3 H4 H5).
Defined.

Lemma alignObject_center_midpoint_witness :
  exact_int (Align.left object_50_20)
  ∧ exact_int (Align.bound_left bound_50_20)
  ∧ exact_int (Align.canvas_width canvas_800x600)
  ∧ exact_int (Align.top object_50_20)
  ∧ exact_int (Align.bound_top bound_50_20)
  ∧ exact_int (Align.canvas_height canvas_800x600)
  ∧ Z.abs (x1 bbox_5_2) ≤ 2 ^ 50
  ∧ Z.abs (width bbox_5_2) ≤ 2 ^ 50
  ∧ Z.abs (y1 bbox_5_2) ≤ 2 ^ 50
  ∧ Z.abs (height bbox_5_2) ≤ 2 ^ 50
  ∧ (Align.left (Align.alignObject canvas_800x600 bound_50_20 bbox_5_2
                   object_50_20 "center-h")
     == (Align.left (Align.alignObject canvas_800x600 bound_50_20 bbox_5_2
                       object_50_20 "left")
         + Align.left (Align.alignObject canvas_800x600 bound_50_20 bbox_5_2
                         object_50_20 "right")) / 2)%Q
  ∧ (Align.top (Align.alignObject canvas_800x600 bound_50_20 bbox_5_2
                  object_50_20 "center-v")
     == (Align.top (Align.alignObject canvas_800x600 bound_50_20 bbox_5_2
                      object_50_20 "top")
         + Align.top (Align.alignObject canvas_800x600 bound_50_20 bbox_5_2
                        object_50_20 "bottom")) / 2)%Q.
Proof.
  assert (H1 : exact_int (Align.left object_50_20)) by solve_exact_int 50.
  assert (H2 : exact_int (Align.bound_left bound_50_20)) by solve_exact_int 50.
  assert (H3 : exact_int (Align.canvas_width canvas_800x600))
    by solve_exact_int 800.
  assert (H4 : exact_int (Align.top object_50_20)) by solve_exact_int 20.
  assert (H5 : exact_int (Align.bound_top bound_50_20)) by solve_exact_int 20.
  assert (H6 : exact_int (Align.canvas_height canvas_800x600))
    by solve_exact_int 600.
  assert (H7 : Z.abs (x1 bbox_5_2) ≤ 2 ^ 50) by (by vm_compute).
  assert (H8 : Z.abs (width bbox_5_2) ≤ 2 ^ 50) by (by vm_compute).
  assert (H9 : Z.abs (y1 bbox_5_2) ≤ 2 ^ 50) by (by vm_compute).
  assert (H10 : Z.abs (height bbox_5_2) ≤ 2 ^ 50) by (by vm_compute).
  repeat (split; [assumption|]).
  exact (alignObject_center_midpoint canvas_800x600 bound_50_20 bbox_5_2
           object_50_20 H1 H2 H3 H4 H5 H6 H7 H8 H9 H10).
Defined.

Lemma alignObject_after_scan_witness :
  exact_int (Align.left object_50_20)
  ∧ exact_int (Align.bound_left bound_50_20)
  ∧ exact_int (Align.canvas_width canvas_800x600)
  ∧ exact_int (Align.top object_50_20)
  ∧ exact_int (Align.bound_top bound_50_20)
  ∧ exact_int (Align.canvas_height canvas_800x600)
  ∧ 0 ≤ 2 ≤ 2 ^ 50
  ∧ 1 ≤ 2 ≤ 2 ^ 50
  ∧ (let realBound := scanPixels 2 2 single_pixel_2x2 in
     (Align.left (Align.alignObject canvas_800x600 bound_50_20 realBound
                    object_50_20 "left")
      == Align.left object_50_20 - Align.bound_left bound_50_20
         - inject_Z 2)%Q
     ∧ (Align.left (Align.alignObject canvas_800x600 bound_50_20 realBound
                      object_50_20 "right")
        == Align.left object_50_20 - Align.bound_left bound_50_20
           + Align.canvas_width canvas_800x600)%Q
     ∧ (Align.top (Align.alignObject canvas_800x600 bound_50_20 realBound
                     object_50_20 "top")
        == Align.top object_50_20 - Align.bound_top bound_50_20
           - inject_Z (2 - 1))%Q
     ∧ (Align.top (Align.alignObject canvas_800x600 bound_50_20 realBound
                     object_50_20 "bottom")
        == Align.top object_50_20 - Align.bound_top bound_50_20
           - inject_Z (2 - 1) + Align.canvas_height canvas_800x600 - 1)%Q).
Proof.
  assert (H1 : exact_int (Align.left object_50_20)) by solve_exact_int 50.
  assert (H2 : exact_int (Align.bound_left bound_50_20)) by solve_exact_int 50.
  assert (H3 : exact_int (Align.canvas_width canvas_800x600))
    by solve_exact_int 800.
  assert (H4 : exact_int (Align.top object_50_20)) by solve_exact_int 20.
  assert (H5 : exact_int (Align.bound_top bound_50_20)) by solve_exact_int 20.
  assert (H6 : exact_int (Align.canvas_height canvas_800x600))
    by solve_exact_int 600.
  assert (H7 : 0 ≤ 2 ≤ 2 ^ 50) by (by vm_compute).
  assert (H8 : 1 ≤ 2 ≤ 2 ^ 50) by (by vm_compute).
  repeat (split; [assumption|]).
  exact (alignObject_after_scan canvas_800x600 bound_50_20 object_50_20 2 2
           single_pixel_2x2 H1 H2 H3 H4 H5 H6 H7 H8).
Defined.

Lemma inRange_square_witness :
  exact_int 2 ∧ exact_int 3 ∧ exact_int 4 ∧ exact_int 4 ∧ exact_int 5
  ∧ (inRange 2 3 4 4 5 = true
     ↔ ((4 - 2 <= 3)%Q ∧ (3 <= 4 + 2)%Q) ∧ ((5 - 2 <= 4)%Q ∧ (4 <= 5 + 2)%Q)).
Proof.
  assert (H2 : exact_int 2) by solve_exact_int 2.
  assert (H3 : exact_int 3) by solve_exact_int 3.
  assert (H4 : exact_int 4) by solve_exact_int 4.
  assert (H5 : exact_int 5) by solve_exact_int 5.
  repeat (split; [assumption|]).
  exact (inRange_square 2 3 4 4 5 H2 H3 H4 H4 H5).
Defined.
